(** * A relational store for research articles: the tutorial notebooks, verified

    The repository is a set of notebooks that build one small relational
    data model (articles, authors, keywords and the two association tables)
    three times: with raw SQL through [sqlite3], with SQLModel classes, and
    with SQLModel relationships.  This development embeds

    - the SQLite store the notebooks talk to: five tables, the declared
      primary keys and unique index, a connection with one open transaction;
    - the statements the notebooks issue, as a program tree over those
      statements, so that a run can be stopped after any statement;
    - the three notebooks as programs over that tree,

    and proves the properties of the specification about them. *)

From Stdlib Require Import ZArith Ascii String.
From stdpp Require Import base option list gmap strings.

#[local] Open Scope string_scope.
#[local] Open Scope list_scope.
#[local] Open Scope Z_scope.

(** ** Text *)

(** [str.lower()] on the ASCII range: 'A'..'Z' go to 'a'..'z', every other
    character is kept.  Text is modelled as a string of 8-bit characters;
    letters outside ASCII are not folded. *)
Definition lower_ascii (c : ascii) : ascii :=
  let n := N_of_ascii c in
  if ((65 <=? n) && (n <=? 90))%N then ascii_of_N (n + 32) else c.

Fixpoint lower (s : string) : string :=
  match s with
  | EmptyString => EmptyString
  | String c s' => String (lower_ascii c) (lower s')
  end.

(** SQLite's [LIKE]: ['%'] matches any run of characters, ['_'] matches
    exactly one character, every other character matches itself, ASCII
    letters without regard to case.  There is no escape character: the
    statements of the notebooks carry no ESCAPE clause. *)
Fixpoint like (pattern s : string) : bool :=
  match pattern with
  | EmptyString => match s with EmptyString => true | String _ _ => false end
  | String p pattern' =>
      if Ascii.eqb p "%" then
        (fix skip (s : string) : bool :=
           like pattern' s
           || match s with
              | EmptyString => false
              | String _ s' => skip s'
              end) s
      else if Ascii.eqb p "_" then
        match s with
        | EmptyString => false
        | String _ s' => like pattern' s'
        end
      else
        match s with
        | EmptyString => false
        | String c s' => Ascii.eqb (lower_ascii p) (lower_ascii c) && like pattern' s'
        end
  end.

(** [column.contains(other)] of SQLAlchemy renders as
    [column LIKE '%' || other || '%']. *)
Definition contains (column other : string) : bool :=
  like ("%" +:+ other +:+ "%") column.

(** ** Rows *)

Record Article := mkArticle {
  doi : string;
  title : string;
  publication_year : Z;
  abstract : option string
}.

Record Author := mkAuthor {
  au_id : Z;
  first_name : string;
  last_name : string;
  affiliation : option string
}.

(** A stored row of the [keyword] table; [keyword] carries a unique index. *)
Record keyword_row := mkKeywordRow {
  k_id : Z;
  k_keyword : string
}.

Record ArticleKeyword := mkArticleKeyword {
  article_doi : string;
  keyword_id : Z
}.

Record ArticleAuthor := mkArticleAuthor {
  aa_article_doi : string;
  author_id : Z
}.

#[global] Instance Article_eq_dec : EqDecision Article.
Proof. solve_decision. Defined.
#[global] Instance Author_eq_dec : EqDecision Author.
Proof. solve_decision. Defined.
#[global] Instance keyword_row_eq_dec : EqDecision keyword_row.
Proof. solve_decision. Defined.
#[global] Instance ArticleKeyword_eq_dec : EqDecision ArticleKeyword.
Proof. solve_decision. Defined.
#[global] Instance ArticleAuthor_eq_dec : EqDecision ArticleAuthor.
Proof. solve_decision. Defined.

(** ** The database file *)

(** The tables, under the names SQLModel gives them.  The raw-SQL notebook
    calls them [articles], [authors], [keywords], [article_keywords] and
    [article_authors], with the same columns and keys. *)
Inductive table :=
| tbl_article
| tbl_author
| tbl_keyword
| tbl_articlekeyword
| tbl_articleauthor.

#[global] Instance table_eq_dec : EqDecision table.
Proof. solve_decision. Defined.

(** The image of one database file.  A table that has not been created is
    [None]; a created table holds its rows in rowid order. *)
Record database := mkDatabase {
  t_article : option (list Article);
  t_author : option (list Author);
  t_keyword : option (list keyword_row);
  t_articlekeyword : option (list ArticleKeyword);
  t_articleauthor : option (list ArticleAuthor)
}.

(** The file right after [remove_db] and a first connection: no table. *)
Definition empty_db : database := mkDatabase None None None None None.

Definition articles (db : database) : list Article := default [] (t_article db).
Definition authors (db : database) : list Author := default [] (t_author db).
Definition keywords (db : database) : list keyword_row := default [] (t_keyword db).
Definition article_keywords (db : database) : list ArticleKeyword :=
  default [] (t_articlekeyword db).
Definition article_authors (db : database) : list ArticleAuthor :=
  default [] (t_articleauthor db).

Definition table_exists (t : table) (db : database) : bool :=
  match t with
  | tbl_article => bool_decide (is_Some (t_article db))
  | tbl_author => bool_decide (is_Some (t_author db))
  | tbl_keyword => bool_decide (is_Some (t_keyword db))
  | tbl_articlekeyword => bool_decide (is_Some (t_articlekeyword db))
  | tbl_articleauthor => bool_decide (is_Some (t_articleauthor db))
  end.

Definition row_count (t : table) (db : database) : option nat :=
  match t with
  | tbl_article => length <$> t_article db
  | tbl_author => length <$> t_author db
  | tbl_keyword => length <$> t_keyword db
  | tbl_articlekeyword => length <$> t_articlekeyword db
  | tbl_articleauthor => length <$> t_articleauthor db
  end.

(** ** Errors *)

(** The exceptions a cell can end with.  [IntegrityError] is the one of
    [sqlite3] and of SQLAlchemy alike. *)
Inductive exn :=
| IntegrityError        (* UNIQUE / PRIMARY KEY constraint failed *)
| OperationalError      (* no such table, table already exists *)
| MultipleResultsFound  (* [one_or_none()] on more than one row *)
| TypeError.            (* [fetchone()[0]] when no row came back *)

Inductive result (A : Type) :=
| Ok (a : A)
| Err (e : exn).
Arguments Ok {A} a.
Arguments Err {A} e.

#[global] Instance exn_eq_dec : EqDecision exn.
Proof. solve_decision. Defined.

(** ** Statements on a database image *)

(** The rowid SQLite gives to a row inserted without one: 1 in an empty
    table, otherwise one more than the largest rowid in use. *)
Definition next_rowid (ids : list Z) : Z :=
  match ids with
  | [] => 1
  | i :: ids' => foldr Z.max i ids' + 1
  end.

Definition with_article (rows : list Article) (db : database) : database :=
  mkDatabase (Some rows) (t_author db) (t_keyword db) (t_articlekeyword db)
    (t_articleauthor db).
Definition with_author (rows : list Author) (db : database) : database :=
  mkDatabase (t_article db) (Some rows) (t_keyword db) (t_articlekeyword db)
    (t_articleauthor db).
Definition with_keyword (rows : list keyword_row) (db : database) : database :=
  mkDatabase (t_article db) (t_author db) (Some rows) (t_articlekeyword db)
    (t_articleauthor db).
Definition with_articlekeyword (rows : list ArticleKeyword) (db : database) : database :=
  mkDatabase (t_article db) (t_author db) (t_keyword db) (Some rows)
    (t_articleauthor db).
Definition with_articleauthor (rows : list ArticleAuthor) (db : database) : database :=
  mkDatabase (t_article db) (t_author db) (t_keyword db) (t_articlekeyword db)
    (Some rows).

(** [CREATE TABLE t (...)]: fails when the table is there already. *)
Definition create_table (t : table) (db : database) : result database :=
  if table_exists t db then Err OperationalError
  else Ok match t with
          | tbl_article => with_article [] db
          | tbl_author => with_author [] db
          | tbl_keyword => with_keyword [] db
          | tbl_articlekeyword => with_articlekeyword [] db
          | tbl_articleauthor => with_articleauthor [] db
          end.

(** [CREATE TABLE IF NOT EXISTS t (...)]. *)
Definition create_table_if_not_exists (t : table) (db : database) : result database :=
  if table_exists t db then Ok db else create_table t db.

(** [INSERT INTO article (doi, title, publication_year, abstract) VALUES (?, ?, ?, ?)];
    [doi] is the primary key. *)
Definition insert_article (a : Article) (db : database) : result database :=
  match t_article db with
  | None => Err OperationalError
  | Some rows =>
      if bool_decide (doi a ∈ doi <$> rows) then Err IntegrityError
      else Ok (with_article (rows ++ [a]) db)
  end.

(** [INSERT INTO keyword (keyword) VALUES (?)]; the id is generated, the
    text must be new (unique index).  The answer is the generated id. *)
Definition insert_keyword (kw : string) (db : database) : result (Z * database) :=
  match t_keyword db with
  | None => Err OperationalError
  | Some rows =>
      if bool_decide (kw ∈ k_keyword <$> rows) then Err IntegrityError
      else
        let i := next_rowid (k_id <$> rows) in
        Ok (i, with_keyword (rows ++ [mkKeywordRow i kw]) db)
  end.

(** [INSERT INTO articlekeyword (article_doi, keyword_id) VALUES (?, ?)];
    the pair is the primary key.  SQLite does not check foreign keys unless
    [PRAGMA foreign_keys] is switched on, which no notebook does: the
    referenced rows are not looked at. *)
Definition insert_articlekeyword (d : string) (kid : Z) (db : database) : result database :=
  match t_articlekeyword db with
  | None => Err OperationalError
  | Some rows =>
      if bool_decide (mkArticleKeyword d kid ∈ rows) then Err IntegrityError
      else Ok (with_articlekeyword (rows ++ [mkArticleKeyword d kid]) db)
  end.

(** [SELECT ... FROM keyword WHERE keyword.keyword = ?]. *)
Definition select_keyword (kw : string) (db : database) : result (list keyword_row) :=
  match t_keyword db with
  | None => Err OperationalError
  | Some rows => Ok (filter (λ r, k_keyword r = kw) rows)
  end.

(** The statement built by
    [select(Article).where(Article.keywords.any(Keyword.keyword.contains(other)))]:
    [SELECT ... FROM article WHERE EXISTS (SELECT 1 FROM articlekeyword, keyword
     WHERE article.doi = articlekeyword.article_doi
       AND keyword.id = articlekeyword.keyword_id
       AND keyword.keyword LIKE '%' || ? || '%')]. *)
Definition keyword_matches (other : string) (db : database) (a : Article) : bool :=
  existsb (λ l : ArticleKeyword,
    existsb (λ k : keyword_row,
      bool_decide (doi a = article_doi l)
      && bool_decide (k_id k = keyword_id l)
      && contains (k_keyword k) other) (keywords db)) (article_keywords db).

Definition select_articles_by_keyword (other : string) (db : database)
  : result (list Article) :=
  match t_article db, t_articlekeyword db, t_keyword db with
  | Some rows, Some _, Some _ => Ok (List.filter (keyword_matches other db) rows)
  | _, _, _ => Err OperationalError
  end.

(** ** Connections and transactions *)

(** A connection to the file: what is on disk, and the image seen by the
    open transaction when there is one. *)
Record connection := mkConnection {
  disk : database;
  txn : option database
}.

Definition connect (db : database) : connection := mkConnection db None.

(** What statements on this connection read. *)
Definition view (c : connection) : database := default (disk c) (txn c).

(** The statements the notebooks send, each with the type of its answer:
    [PRAGMA table_info], the two forms of [CREATE TABLE], the three
    [INSERT]s, the two [SELECT]s, [COMMIT] and [ROLLBACK].  [CREATE TABLE]
    is part of the transaction that the next commit ends, as the raw-SQL
    notebook describes it and as the log of [create_all] shows it. *)
Inductive stmt : Type → Type :=
| TableInfo (t : table) : stmt bool
| CreateTable (t : table) : stmt unit
| CreateTableIfNotExists (t : table) : stmt unit
| InsertArticle (a : Article) : stmt unit
| InsertKeyword (kw : string) : stmt Z
| InsertArticleKeyword (d : string) (kid : Z) : stmt unit
| SelectKeyword (kw : string) : stmt (list keyword_row)
| SelectArticlesByKeyword (other : string) : stmt (list Article)
| Commit : stmt unit
| Rollback : stmt unit.

(** A statement that writes opens the transaction if none is open; a
    failing statement leaves the connection as it was. *)
Definition write {B} (f : database → result (B * database)) (c : connection)
  : result B * connection :=
  match f (view c) with
  | Ok (b, db') => (Ok b, mkConnection (disk c) (Some db'))
  | Err e => (Err e, c)
  end.

Definition unit_write (f : database → result database) (db : database)
  : result (unit * database) :=
  match f db with
  | Ok db' => Ok (tt, db')
  | Err e => Err e
  end.

Definition exec {B} (q : stmt B) (c : connection) : result B * connection :=
  match q in stmt B return result B * connection with
  | TableInfo t => (Ok (table_exists t (view c)), c)
  | CreateTable t => write (unit_write (create_table t)) c
  | CreateTableIfNotExists t => write (unit_write (create_table_if_not_exists t)) c
  | InsertArticle a => write (unit_write (insert_article a)) c
  | InsertKeyword kw => write (insert_keyword kw) c
  | InsertArticleKeyword d kid => write (unit_write (insert_articlekeyword d kid)) c
  | SelectKeyword kw => (select_keyword kw (view c), c)
  | SelectArticlesByKeyword other => (select_articles_by_keyword other (view c), c)
  | Commit => (Ok tt, mkConnection (view c) None)
  | Rollback => (Ok tt, mkConnection (disk c) None)
  end.

(** ** Programs *)

(** A notebook is a tree of statements: each node is one statement sent to
    the connection, and the rest of the program receives its answer or the
    exception it raised. *)
Inductive prog (A : Type) : Type :=
| Ret (a : A)
| Raise (e : exn)
| Exec {B : Type} (q : stmt B) (k : result B → prog A).
Arguments Ret {A} a.
Arguments Raise {A} e.
Arguments Exec {A B} q k.

Fixpoint bind {A B} (p : prog A) (f : A → prog B) : prog B :=
  match p with
  | Ret a => f a
  | Raise e => Raise e
  | Exec q k => Exec q (λ r, bind (k r) f)
  end.

#[global] Instance prog_ret : MRet prog := @Ret.
#[global] Instance prog_bind : MBind prog := λ A B f p, bind p f.

(** Send a statement; an exception of the driver propagates. *)
Definition execute {B} (q : stmt B) : prog B :=
  Exec q (λ r, match r with Ok b => Ret b | Err e => Raise e end).
#[global] Arguments execute : simpl never.

(** [for x in l: body]. *)
Fixpoint for_each {X} (l : list X) (body : X → prog unit) : prog unit :=
  match l with
  | [] => Ret tt
  | x :: l' => body x;; for_each l' body
  end.

(** [try: p finally: h]. *)
Fixpoint finally {A} (p : prog A) (h : prog unit) : prog A :=
  match p with
  | Ret a => h;; Ret a
  | Raise e => h;; Raise e
  | Exec q k => Exec q (λ r, finally (k r) h)
  end.

(** Running a program to its end: the value or the exception that reached
    the caller, and the connection it leaves. *)
Fixpoint run {A} (p : prog A) (c : connection) : result A * connection :=
  match p with
  | Ret a => (Ok a, c)
  | Raise e => (Err e, c)
  | Exec q k => let '(r, c') := exec q c in run (k r) c'
  end.

(** The connection after each statement of the run, in order. *)
Fixpoint trace {A} (p : prog A) (c : connection) : list connection :=
  match p with
  | Ret _ | Raise _ => []
  | Exec q k => let '(r, c') := exec q c in c' :: trace (k r) c'
  end.

(** The process stops after [n] statements (or at the end of the program,
    if that comes first): the connection at that moment. *)
Fixpoint crash_after {A} (n : nat) (p : prog A) (c : connection) : connection :=
  match n, p with
  | S n', Exec q k => let '(r, c') := exec q c in crash_after n' (k r) c'
  | _, _ => c
  end.

(** ** The input file *)

(** One author of a record of [data/*.json]. *)
Record author_record := mkAuthorRecord {
  firstName : string;
  lastName : string;
  institutions : list string
}.

(** One ["item"] of ["itemHits"]: the fields the notebooks read, and the
    publication date they do not read. *)
Record item := mkItem {
  item_doi : string;
  item_title : string;
  item_abstract : option string;
  item_keywords : list string;
  item_authors : list author_record;
  item_publishedDate : string
}.

(** ** The SQLModel classes *)

(** An instance of the [Keyword] class: [id] is [None] until the row has
    been inserted.  Two instances with the same [Some] id are the one object
    the session holds for that row. *)
Module Keyword.
Record t := mk {
  id : option Z;
  keyword : string
}.
Definition of_row (r : keyword_row) : t := mk (Some (k_id r)) (k_keyword r).
End Keyword.

(** [SQLModel.metadata.create_all(engine)]: look every table of the metadata
    up, create the missing ones, commit.  The metadata is keyed by table
    name and lists each table once. *)
Fixpoint missing_tables (metadata : list table) : prog (list table) :=
  match metadata with
  | [] => Ret []
  | t :: metadata' =>
      there ← execute (TableInfo t);
      rest ← missing_tables metadata';
      Ret (if there : bool then rest else t :: rest)
  end.

Definition create_all (metadata : list table) : prog unit :=
  missing ← missing_tables metadata;
  for_each missing (λ t, execute (CreateTable t));;
  execute Commit.

(** [with Session(engine) as session: body]: leaving the block closes the
    session, which rolls back whatever transaction is still open. *)
Definition with_session {A} (body : prog A) : prog A :=
  finally body (execute Rollback).

(** [.one_or_none()]. *)
Definition one_or_none {R} (rows : list R) : prog (option R) :=
  match rows with
  | [] => Ret None
  | [r] => Ret (Some r)
  | _ => Raise MultipleResultsFound
  end.

(** ** Files *)

(** The directory the notebooks run in: its database files, by name. *)
Abbreviation filesystem := (gmap string database).

(** [os.path.exists(path)]. *)
Definition os_path_exists (path : string) (fs : filesystem) : bool :=
  bool_decide (is_Some (fs !! path)).

(** [os.remove(path)]: raises [FileNotFoundError] when there is no such
    file. *)
Inductive os_error := FileNotFoundError.

Definition os_remove (path : string) (fs : filesystem) : os_error + filesystem :=
  match fs !! path with
  | Some _ => inr (delete path fs)
  | None => inl FileNotFoundError
  end.

(** The body shared by the three [remove_db] functions, which differ in the
    file name only. *)
Definition remove_db_file (path : string) (fs : filesystem) : os_error + filesystem :=
  if os_path_exists path fs then os_remove path fs else inr fs.

(** Connecting opens the file, or starts from an empty one. *)
Definition open_file (path : string) (fs : filesystem) : connection :=
  connect (default empty_db (fs !! path)).

(** ** Notebook 2: raw SQL through [sqlite3] *)

Module Sqlite.

Definition db_file : string := "research_articles.db".

Definition remove_db : filesystem → os_error + filesystem := remove_db_file db_file.

(** The tables of the notebook, in the order of its cells.  The notebook
    gives [articles], [authors] and [article_authors]. *)
Definition given_tables : list table := [tbl_article; tbl_author; tbl_articleauthor].

(** Modelled from the spec: the [keywords] and [article_keywords] tables,
    which the notebook leaves as an exercise; the data model of the
    specification gives them the columns, the unique keyword text and the
    composite primary key that [keyword_row] and [ArticleKeyword] carry
    here, and they are created like the tables the notebook does give. *)
Definition exercise_tables : list table := [tbl_keyword; tbl_articlekeyword].

(** [cursor.execute("CREATE TABLE IF NOT EXISTS ..."); connection.commit()]. *)
Definition create_tables (tables : list table) : prog unit :=
  for_each tables (λ t, execute (CreateTableIfNotExists t);; execute Commit).

(** [cursor.fetchone()[0]] on rows of [SELECT keyword_id ...]. *)
Definition fetchone_0 (rows : list keyword_row) : prog Z :=
  match rows with
  | [] => Raise TypeError
  | r :: _ => Ret (k_id r)
  end.

Section Notebook.
(** [datetime.datetime.now().year] *)
Variable year : Z.

Definition recent_paper (paper : item) : Article :=
  mkArticle (item_doi paper) (item_title paper) year (item_abstract paper).

Definition insert_article_cell (paper : item) : prog unit :=
  execute (InsertArticle (recent_paper paper));;
  execute Commit.

Definition insert_keywords_cell (paper : item) : prog unit :=
  for_each (item_keywords paper) (λ keyword,
    _ ← execute (InsertKeyword keyword); Ret tt);;
  execute Commit.

(** One turn of the loop that associates the keywords with the paper. *)
Definition associate (paper_id keyword : string) : prog unit :=
  rows ← execute (SelectKeyword keyword);
  result ← fetchone_0 rows;
  execute (InsertArticleKeyword paper_id result).

Definition associate_cell (paper : item) : prog unit :=
  let paper_id := item_doi paper in
  for_each (item_keywords paper) (associate paper_id).

Definition notebook (paper : item) : prog unit :=
  create_tables given_tables;;
  create_tables exercise_tables;;
  insert_article_cell paper;;
  insert_keywords_cell paper;;
  associate_cell paper.
End Notebook.

End Sqlite.

(** ** Notebook 3: SQLModel classes *)

Module SqlModel.

Definition db_file : string := "sqlmodel_database.db".

Definition remove_db : filesystem → os_error + filesystem := remove_db_file db_file.

Definition first_article (paper_data : item) : Article :=
  mkArticle (item_doi paper_data) (item_title paper_data) 2024
    (item_abstract paper_data).

(** The cell that adds the paper: the article, then one keyword per
    commit. *)
Definition add_paper (paper_data : item) : prog unit :=
  with_session (
    execute (InsertArticle (first_article paper_data));;
    execute Commit;;
    for_each (item_keywords paper_data) (λ keyword,
      let keyword_obj := Keyword.mk None (lower keyword) in
      _ ← execute (InsertKeyword (Keyword.keyword keyword_obj));
      execute Commit)).

(** [create_all] runs three times, each time with the classes defined so
    far. *)
Definition notebook (paper_data : item) : prog unit :=
  create_all [tbl_article];;
  create_all [tbl_article; tbl_author; tbl_keyword];;
  create_all [tbl_article; tbl_author; tbl_keyword; tbl_articlekeyword;
              tbl_articleauthor];;
  add_paper paper_data.

End SqlModel.

(** ** Notebook 4: SQLModel relationships *)

Module Relationships.

Definition db_file : string := "sqlmodel_database_relationships.db".

Definition remove_db : filesystem → os_error + filesystem := remove_db_file db_file.

(** Modelled from the spec: the [Keyword] class and the [keywords]
    relationship of [Article], which the notebook leaves as an exercise;
    the class is the one of notebook 3 ([keyword] unique and indexed), the
    relationship goes through [ArticleKeyword] like [authors] goes through
    [ArticleAuthor]. *)
Definition metadata : list table :=
  [tbl_article; tbl_author; tbl_keyword; tbl_articlekeyword; tbl_articleauthor].

(** The body of the inner loop: the object for one keyword of the paper. *)
Definition keyword_object (keyword : string) : prog Keyword.t :=
  let keyword := lower keyword in
  rows ← execute (SelectKeyword keyword);
  result ← one_or_none rows;
  match result with
  | None => Ret (Keyword.mk None (lower keyword))
  | Some r => Ret (Keyword.of_row r)
  end.

(** What [session.commit()] sends for a new article with its [keywords]:
    the rows of the objects that have no id yet, the article, one
    association row per entry of the list, and COMMIT. *)
Definition keyword_id_of (k : Keyword.t) : prog Z :=
  match Keyword.id k with
  | Some i => Ret i
  | None => execute (InsertKeyword (Keyword.keyword k))
  end.

Definition session_commit (a : Article) (keywords : list Keyword.t) : prog unit :=
  ids ← mapM keyword_id_of keywords;
  execute (InsertArticle a);;
  for_each ids (λ i, execute (InsertArticleKeyword (doi a) i));;
  execute Commit.

Definition new_article (paper_data : item) : Article :=
  mkArticle (item_doi paper_data) (item_title paper_data) 2024
    (item_abstract paper_data).

Definition add_paper (paper_data : item) : prog unit :=
  keywords ← mapM keyword_object (item_keywords paper_data);
  session_commit (new_article paper_data) keywords.

(** The cell that adds the papers of [data/fifty_papers.json]. *)
Definition load (data : list item) : prog unit :=
  with_session (for_each data add_paper).

(** [session.exec(stmt).all()] for the keyword query. *)
Definition query (other : string) : prog (list Article) :=
  execute (SelectArticlesByKeyword other).

Definition notebook (data : list item) (other : string) : prog (list Article) :=
  create_all metadata;;
  load data;;
  query other.

End Relationships.

(** ** Vocabulary of the properties *)

(** [u] occurs in [s]. *)
Definition substring (u s : string) : Prop :=
  ∃ pre post, s = pre +:+ u +:+ post.

(** No character of [s] is one of the wildcards of [LIKE]. *)
Fixpoint no_wildcard (s : string) : bool :=
  match s with
  | EmptyString => true
  | String c s' => negb (Ascii.eqb c "%") && negb (Ascii.eqb c "_") && no_wildcard s'
  end.

Definition dois (db : database) : list string := doi <$> articles db.
Definition keyword_ids (db : database) : list Z := k_id <$> keywords db.
Definition keyword_texts (db : database) : list string := k_keyword <$> keywords db.
Definition author_ids (db : database) : list Z := au_id <$> authors db.

(** All five tables have been created. *)
Definition initialised (db : database) : Prop :=
  ∀ t, table_exists t db = true.

(** Every association row points to an article row and to a keyword or
    author row of the same image. *)
Definition referential_integrity (db : database) : Prop :=
  (∀ l, l ∈ article_keywords db →
        article_doi l ∈ dois db ∧ keyword_id l ∈ keyword_ids db)
  ∧ (∀ l, l ∈ article_authors db →
          aa_article_doi l ∈ dois db ∧ author_id l ∈ author_ids db).

(** The declared keys: no two rows of a table agree on its primary key, no
    two keyword rows carry the same text. *)
Definition keys_unique (db : database) : Prop :=
  NoDup (dois db)
  ∧ NoDup (keyword_ids db)
  ∧ NoDup (keyword_texts db)
  ∧ NoDup (article_keywords db)
  ∧ NoDup (article_authors db).

(** Every stored keyword is in lower case. *)
Definition keywords_normalized (db : database) : Prop :=
  ∀ r, r ∈ keywords db → lower (k_keyword r) = k_keyword r.

(** A property of images that holds of what is on disk and of what the
    open transaction sees. *)
Definition both (P : database → Prop) (c : connection) : Prop :=
  P (disk c) ∧ P (view c).

(** Every statement a run of [p] from [c] sends meets the condition [G] in
    the connection it is sent to. *)
Fixpoint guarded (G : ∀ B, stmt B → connection → Prop) {A} (p : prog A)
    (c : connection) : Prop :=
  match p with
  | Ret _ | Raise _ => True
  | Exec q k => G _ q c ∧ guarded G (k (exec q c).1) (exec q c).2
  end.

(** The run of [p] from [c] sends only statements that meet [G], and a
    value it returns meets [Q] with the connection it leaves. *)
Definition triple (G : ∀ B, stmt B → connection → Prop) {A}
    (c : connection) (p : prog A) (Q : A → connection → Prop) : Prop :=
  guarded G p c
  ∧ ∀ a c', run p c = (Ok a, c') → Q a c'.

(** [p] sends only statements that meet [G], wherever it starts. *)
Definition always (G : ∀ B, stmt B → connection → Prop) {A} (p : prog A) : Prop :=
  ∀ c, guarded G p c.

(** What the transaction of [c'] sees includes the articles and keywords
    that the transaction of [c] sees. *)
Definition grows (c c' : connection) : Prop :=
  dois (view c) ⊆ dois (view c')
  ∧ keyword_ids (view c) ⊆ keyword_ids (view c').

(** Association rows are inserted for rows the transaction sees. *)
Definition links_to_seen : ∀ B, stmt B → connection → Prop :=
  λ B q c,
    match q with
    | InsertArticleKeyword d kid => d ∈ dois (view c) ∧ kid ∈ keyword_ids (view c)
    | _ => True
    end.

(** Keywords are inserted in lower case, articles with the year 2024. *)
Definition orm_values : ∀ B, stmt B → connection → Prop :=
  λ B q c,
    match q with
    | InsertKeyword kw => lower kw = kw
    | InsertArticle a => publication_year a = 2024
    | _ => True
    end.

(** The statement is not COMMIT. *)
Definition no_commit : ∀ B, stmt B → connection → Prop :=
  λ B q c, match q with Commit => False | _ => True end.

(** The statement is not ROLLBACK. *)
Definition no_rollback : ∀ B, stmt B → connection → Prop :=
  λ B q c, match q with Rollback => False | _ => True end.

(** Every stored article carries the year 2024. *)
Definition all_2024 (db : database) : Prop :=
  ∀ a, a ∈ articles db → publication_year a = 2024.

(** Statement [q], run on the image [db], went through and left [db']. *)
Definition writes {B} (q : stmt B) (db db' : database) : Prop :=
  match q with
  | CreateTable t => create_table t db = Ok db'
  | CreateTableIfNotExists t => create_table_if_not_exists t db = Ok db'
  | InsertArticle a => insert_article a db = Ok db'
  | InsertKeyword kw => ∃ i, insert_keyword kw db = Ok (i, db')
  | InsertArticleKeyword d kid => insert_articlekeyword d kid db = Ok db'
  | _ => False
  end.

(** The two conditions the SQLModel notebooks meet together. *)
Definition orm_guard : ∀ B, stmt B → connection → Prop :=
  λ B q c, links_to_seen B q c ∧ orm_values B q c.

(** A keyword object as the lookup of notebook 4 hands it out: an object
    with an id stands for a row the transaction sees, an object without one
    carries a lower-case text. *)
Definition keyword_object_ok (c : connection) (o : Keyword.t) : Prop :=
  match Keyword.id o with
  | Some i => i ∈ keyword_ids (view c)
  | None => lower (Keyword.keyword o) = Keyword.keyword o
  end.

(** What holds of every image a notebook can leave. *)
Definition store_ok (db : database) : Prop :=
  keys_unique db ∧ referential_integrity db.

Definition orm_store_ok (db : database) : Prop :=
  store_ok db ∧ keywords_normalized db ∧ all_2024 db.

(** The image [db'] holds every article, keyword and association row of
    [db]. *)
Definition extends (db db' : database) : Prop :=
  articles db ⊆ articles db'
  ∧ keywords db ⊆ keywords db'
  ∧ article_keywords db ⊆ article_keywords db'.



(** The tables other than [keyword] are the same. *)
Definition keyword_only (db db' : database) : Prop :=
  t_article db' = t_article db ∧ t_author db' = t_author db
  ∧ t_articlekeyword db' = t_articlekeyword db
  ∧ t_articleauthor db' = t_articleauthor db.

(** The tables other than [articlekeyword] are the same. *)
Definition link_only (db db' : database) : Prop :=
  t_article db' = t_article db ∧ t_author db' = t_author db
  ∧ t_keyword db' = t_keyword db
  ∧ t_articleauthor db' = t_articleauthor db.



(** ** Runs of the notebooks *)

(** A notebook run on its input.  Every notebook starts by removing its
    database file, so the connection starts on an empty file. *)
Inductive notebook_run :=
| RunSqlite (year : Z) (paper : item)
| RunSqlModel (paper_data : item)
| RunRelationships (data : list item) (other : string).

(** The connection of a notebook run after [n] statements. *)
Definition moment (r : notebook_run) (n : nat) : connection :=
  match r with
  | RunSqlite year paper =>
      crash_after n (Sqlite.notebook year paper) (connect empty_db)
  | RunSqlModel paper_data =>
      crash_after n (SqlModel.notebook paper_data) (connect empty_db)
  | RunRelationships data other =>
      crash_after n (Relationships.notebook data other) (connect empty_db)
  end.

(** [p] never commits. *)
Definition quiet {A} (p : prog A) : Prop := always no_commit p.

(** Whenever [p] is stopped, the disk is as [p] found it, or [p] has run to
    its end without an exception. *)
Definition atomic {A} (p : prog A) : Prop :=
  ∀ c n,
    disk (crash_after n p c) = disk c
    ∨ (crash_after n p c = (run p c).2 ∧ ∃ a, (run p c).1 = Ok a).

(** [remove_db], called on the directory [fs], returns without an exception
    and leaves a directory without [db_file]; it removed nothing if the file
    was not there, it touched no other file, and a second call changes
    nothing. *)
Definition removes (remove_db : filesystem → os_error + filesystem)
    (db_file : string) (fs : filesystem) : Prop :=
  ∃ fs',
    remove_db fs = inr fs'
    ∧ fs' !! db_file = None
    ∧ (fs !! db_file = None → fs' = fs)
    ∧ (∀ other, other ≠ db_file → fs' !! other = fs !! other)
    ∧ remove_db fs' = inr fs'.

(** The two images hold the same rows, table by table. *)
Definition same_rows (db db' : database) : Prop :=
  articles db' = articles db
  ∧ authors db' = authors db
  ∧ keywords db' = keywords db
  ∧ article_keywords db' = article_keywords db
  ∧ article_authors db' = article_authors db.

(** [p] initialises the schema [tables] on the image [db]: it returns
    without an exception and commits; no table is lost and every row is
    still in place, so the tables that were there count as many rows as
    before; the tables of the schema are there; and applying [p] once more
    changes nothing. *)
Definition initialises (p : prog unit) (tables : list table) (db : database) : Prop :=
  ∃ db',
    run p (connect db) = (Ok tt, connect db')
    ∧ same_rows db db'
    ∧ (∀ t, table_exists t db = true →
            table_exists t db' = true ∧ row_count t db' = row_count t db)
    ∧ (∀ t, t ∈ tables → table_exists t db' = true)
    ∧ run p (connect db') = (Ok tt, connect db').

(** Keyword row [k] is associated with article [a]. *)
Definition linked (db : database) (a : Article) (k : keyword_row) : Prop :=
  k ∈ keywords db ∧ mkArticleKeyword (doi a) (k_id k) ∈ article_keywords db.



(** ** Sample input *)

(** The paper of [data/one_paper.json], cut down to the fields read. *)
Definition one_paper : item :=
  mkItem "10.26434/chemrxiv-2024-jjdsq"
    "Latin American Natural Product Database (LANaPDB): an update "
    (Some "Natural product (NP) databases are crucial tools")
    ["Chemoinformatics"; "Chemical space"; "Database"; "Diversity";
     "Drug discovery"; "Latin America"; "Open science"]
    [mkAuthorRecord "Alejandro" "Gomez-Garcia" ["UNAM"]]
    "2024-08-27T08:03:44.135Z".

(** The two articles of the example of the specification. *)
Definition tagged_drug : item :=
  mkItem "10.26434/example-1" "First" None ["Chemoinformatics"; "Drug Discovery"] [] "".

Definition tagged_database : item :=
  mkItem "10.26434/example-2" "Second" None ["Database"] [] "".

(** A paper that lists one keyword in two casings. *)
Definition two_casings : item :=
  mkItem "10.26434/example-3" "Third" None ["AI"; "ai"] [] "".

(** ** Vocabulary of the further properties *)

(** The statement neither writes to the [article] table nor ends the
    transaction nor changes the schema. *)
Definition keeps_articles : ∀ B, stmt B → connection → Prop :=
  λ B q c,
    match q with
    | TableInfo _ | InsertKeyword _ | InsertArticleKeyword _ _
    | SelectKeyword _ | SelectArticlesByKeyword _ => True
    | _ => False
    end.

(** The statement is not the [INSERT] of an association row. *)
Definition no_association : ∀ B, stmt B → connection → Prop :=
  λ B q c, match q with InsertArticleKeyword _ _ => False | _ => True end.

(** Neither the [author] table nor the [articleauthor] table holds a row. *)
Definition no_author_rows (db : database) : Prop :=
  authors db = [] ∧ article_authors db = [].

(** The keyword ids are 1, 2, ... in the order of the rows. *)
Definition ids_count_from_one (db : database) : Prop :=
  keyword_ids db = seqZ 1 (Z.of_nat (length (keywords db))).


(** What the raw-SQL notebook sends for its paper: the article it built
    from the record and the year of the clock, and keywords of the record
    as they are. *)
Definition sqlite_values (year : Z) (paper : item) : ∀ B, stmt B → connection → Prop :=
  λ B q c,
    match q with
    | InsertArticle a => a = Sqlite.recent_paper year paper
    | InsertKeyword kw => kw ∈ item_keywords paper
    | _ => True
    end.

(** The image holds no article but the one of the paper, and no keyword
    but keywords of the paper as the record spells them. *)
Definition as_given (year : Z) (paper : item) (db : database) : Prop :=
  (∀ a, a ∈ articles db → a = Sqlite.recent_paper year paper)
  ∧ (∀ r, r ∈ keywords db → k_keyword r ∈ item_keywords paper).

(** The body of the keyword loop of the raw-SQL notebook, for one
    keyword. *)
Definition insert_keyword_turn (keyword : string) : prog unit :=
  _ ← execute (InsertKeyword keyword); Ret tt.



(** * Proofs *)

(** ** Text: [lower] and [LIKE] *)

Section Text.

Lemma app_nil (s : string) : "" +:+ s = s.
Proof. reflexivity. Qed.

Lemma app_cons (c : ascii) (a b : string) : String c a +:+ b = String c (a +:+ b).
Proof. reflexivity. Qed.

Lemma lower_ascii_idemp (c : ascii) : lower_ascii (lower_ascii c) = lower_ascii c.
Proof.
  destruct c as [[] [] [] [] [] [] [] []]; reflexivity.
Qed.

Lemma lower_idemp (s : string) : lower (lower s) = lower s.
Proof.
  induction s as [|c s IH]; simpl; [done|].
  by rewrite lower_ascii_idemp, IH.
Qed.

Lemma lower_app (a b : string) : lower (a +:+ b) = lower a +:+ lower b.
Proof.
  induction a as [|c a IH]; [done|].
  rewrite app_cons. simpl. by rewrite IH, app_cons.
Qed.

Lemma lower_app_inv (s a b : string) :
  lower s = a +:+ b → ∃ s1 s2, s = s1 +:+ s2 ∧ lower s1 = a ∧ lower s2 = b.
Proof.
  revert s. induction a as [|c a IH]; intros s Hs.
  - exists "", s. done.
  - destruct s as [|d s]; rewrite app_cons in Hs; simpl in Hs; [done|].
    injection Hs as Hc Hs.
    destruct (IH s Hs) as (s1 & s2 & -> & H1 & H2).
    exists (String d s1), s2. rewrite app_cons. simpl. by rewrite Hc, H1.
Qed.

Lemma like_percent (s : string) : like "%" s = true.
Proof.
  induction s as [|c s IH]; [done|].
  simpl in *. done.
Qed.

(** ['%'] at the head of a pattern: some suffix matches the rest. *)
Lemma like_skip (p s : string) :
  like (String "%" p) s = true ↔ ∃ pre post, s = pre +:+ post ∧ like p post = true.
Proof.
  induction s as [|c s IH].
  - simpl. rewrite orb_false_r. split.
    + intros H. by exists "", "".
    + intros (pre & post & Hs & H). destruct pre; [|done].
      rewrite app_nil in Hs. by subst post.
  - change (like (String "%" p) (String c s))
      with (like p (String c s) || like (String "%" p) s).
    rewrite orb_true_iff, IH. split.
    + intros [H | (pre & post & -> & H)].
      * by exists "", (String c s).
      * by exists (String c pre), post.
    + intros (pre & post & Hs & H). destruct pre as [|d pre].
      * rewrite app_nil in Hs. subst post. by left.
      * rewrite app_cons in Hs. injection Hs as -> ->. right. by exists pre, post.
Qed.

(** A pattern of plain characters followed by ['%']: the text starts with
    those characters, letters compared without case. *)
Lemma like_plain_prefix (u s : string) :
  no_wildcard u = true →
  like (u +:+ "%") s = true ↔ ∃ post, lower s = lower u +:+ post.
Proof.
  revert s. induction u as [|c u IH]; intros s Hu.
  - rewrite app_nil, like_percent. split; [|done].
    intros _. by exists (lower s).
  - simpl in Hu. apply andb_true_iff in Hu as [Hc Hu].
    apply andb_true_iff in Hc as [Hc1 Hc2].
    apply negb_true_iff in Hc1, Hc2.
    rewrite app_cons. simpl. rewrite Hc1, Hc2.
    destruct s as [|d s].
    + split; [done|]. by intros [post ?].
    + rewrite andb_true_iff, (IH s Hu). simpl. split.
      * intros [Hcd [post ->]]. exists post.
        apply Ascii.eqb_eq in Hcd. by rewrite app_cons, Hcd.
      * intros [post H]. rewrite app_cons in H. injection H as Hcd Hs. split.
        -- apply Ascii.eqb_eq. by rewrite Hcd.
        -- by exists post.
Qed.

(** [contains] on a text without wildcards is containment up to the case
    of ASCII letters. *)
Lemma contains_plain (column other : string) :
  no_wildcard other = true →
  contains column other = true ↔ substring (lower other) (lower column).
Proof.
  intros Ho. unfold contains, substring.
  change ("%" +:+ other +:+ "%") with (String "%" (other +:+ "%")).
  rewrite like_skip. split.
  - intros (pre & post & -> & H).
    apply like_plain_prefix in H as [post' H]; [|done].
    exists (lower pre), post'. by rewrite lower_app, H.
  - intros (pre & post & H).
    apply lower_app_inv in H as (s1 & s2 & -> & H1 & H2).
    exists s1, s2. split; [done|].
    apply like_plain_prefix; [done|]. by exists post.
Qed.

(** On a lower-case text and a lower-case argument without wildcards,
    [contains] is plain containment. *)
Lemma contains_lower (column other : string) :
  no_wildcard other = true → lower other = other → lower column = column →
  contains column other = true ↔ substring other column.
Proof.
  intros Ho Hl Hc. rewrite contains_plain by done. by rewrite Hl, Hc.
Qed.

End Text.

(** ** Programs: running, tracing, stopping *)

Section Programs.

Lemma for_each_cons {X} (x : X) (l : list X) (body : X → prog unit) :
  for_each (x :: l) body = (body x;; for_each l body).
Proof. reflexivity. Qed.

Lemma mapM_cons {X Y} (f : X → prog Y) (x : X) (l : list X) :
  mapM f (x :: l) = (y ← f x; ys ← mapM f l; Ret (y :: ys)).
Proof. reflexivity. Qed.

Lemma missing_tables_cons (t : table) (md : list table) :
  missing_tables (t :: md)
  = (there ← execute (TableInfo t);
     rest ← missing_tables md;
     Ret (if there : bool then rest else t :: rest)).
Proof. reflexivity. Qed.

Lemma run_bind {A B} (p : prog A) (f : A → prog B) (c : connection) :
  run (p ≫= f) c
  = match run p c with
    | (Ok a, c') => run (f a) c'
    | (Err e, c') => (Err e, c')
    end.
Proof.
  revert c. induction p as [a|e|X q k IH]; intros c; try done.
  change (run (Exec q k ≫= f) c)
    with (let '(r, c') := exec q c in run (k r ≫= f) c').
  simpl. destruct (exec q c) as [r c']. apply IH.
Qed.

Lemma trace_bind {A B} (p : prog A) (f : A → prog B) (c : connection) :
  trace (p ≫= f) c
  = trace p c ++ match run p c with
                 | (Ok a, c') => trace (f a) c'
                 | (Err e, c') => []
                 end.
Proof.
  revert c. induction p as [a|e|X q k IH]; intros c; try done.
  change (trace (Exec q k ≫= f) c)
    with (let '(r, c') := exec q c in c' :: trace (k r ≫= f) c').
  simpl. destruct (exec q c) as [r c']. simpl. f_equal. apply IH.
Qed.

Lemma run_execute {B} (q : stmt B) (c : connection) : run (execute q) c = exec q c.
Proof.
  unfold execute. simpl. destruct (exec q c) as [[b|e] c']; done.
Qed.

Lemma trace_execute {B} (q : stmt B) (c : connection) :
  trace (execute q) c = [(exec q c).2].
Proof.
  unfold execute. simpl. destruct (exec q c) as [[b|e] c']; done.
Qed.

Lemma run_finally {A} (p : prog A) (h : prog unit) (c : connection) :
  run (finally p h) c
  = match run h (run p c).2 with
    | (Ok _, c'') => ((run p c).1, c'')
    | (Err e, c'') => (Err e, c'')
    end.
Proof.
  revert c. induction p as [a|e|X q k IH]; intros c.
  - simpl finally. rewrite run_bind. simpl. by destruct (run h c) as [[[]|?] ?].
  - simpl finally. rewrite run_bind. simpl. by destruct (run h c) as [[[]|?] ?].
  - simpl. destruct (exec q c) as [r c']. apply IH.
Qed.

Lemma trace_finally {A} (p : prog A) (h : prog unit) (c : connection) :
  trace (finally p h) c = trace p c ++ trace h (run p c).2.
Proof.
  revert c. induction p as [a|e|X q k IH]; intros c.
  - simpl finally. rewrite trace_bind. simpl.
    destruct (run h c) as [[[]|?] ?]; simpl; by rewrite app_nil_r.
  - simpl finally. rewrite trace_bind. simpl.
    destruct (run h c) as [[[]|?] ?]; simpl; by rewrite app_nil_r.
  - simpl. destruct (exec q c) as [r c']. simpl. f_equal. apply IH.
Qed.

Lemma run_in_trace {A} (p : prog A) (c : connection) :
  (run p c).2 ∈ c :: trace p c.
Proof.
  revert c. induction p as [a|e|X q k IH]; intros c; try by left.
  simpl. destruct (exec q c) as [r c']. right. apply IH.
Qed.

(** Stopping a run leaves one of the connections of its trace, and every
    connection of the trace is left by stopping somewhere. *)
Lemma crash_after_in_trace {A} (n : nat) (p : prog A) (c : connection) :
  crash_after n p c ∈ c :: trace p c.
Proof.
  revert p c. induction n as [|n IH]; intros p c; [destruct p; by left|].
  destruct p as [a|e|X q k]; try by left.
  simpl. destruct (exec q c) as [r c']. right. apply IH.
Qed.

Lemma trace_crash_after {A} (p : prog A) (c c1 : connection) :
  c1 ∈ c :: trace p c → ∃ n, crash_after n p c = c1.
Proof.
  revert c. induction p as [a|e|X q k IH]; intros c.
  - intros ->%list_elem_of_singleton. by exists 0%nat.
  - intros ->%list_elem_of_singleton. by exists 0%nat.
  - intros [->|H]%elem_of_cons; [by exists 0%nat|].
    simpl in H. destruct (exec q c) as [r c'] eqn:E.
    destruct (IH r c' H) as [n Hn]. exists (S n). simpl. by rewrite E.
Qed.

Lemma crash_after_end {A} (n : nat) (p : prog A) (c : connection) :
  (length (trace p c) ≤ n)%nat → crash_after n p c = (run p c).2.
Proof.
  revert p c. induction n as [|n IH]; intros p c Hn.
  - destruct p as [a|e|X q k]; try done.
    simpl in Hn. destruct (exec q c); simpl in Hn; lia.
  - destruct p as [a|e|X q k]; try done.
    simpl in *. destruct (exec q c) as [r c']. apply IH. simpl in Hn. lia.
Qed.

Lemma crash_after_bind {A B} (n : nat) (p : prog A) (f : A → prog B) (c : connection) :
  crash_after n (p ≫= f) c
  = if decide (n ≤ length (trace p c))%nat then crash_after n p c
    else match run p c with
         | (Ok a, c') => crash_after (n - length (trace p c)) (f a) c'
         | (Err e, c') => c'
         end.
Proof.
  revert p c. induction n as [|n IH]; intros p c.
  - rewrite decide_True by lia. by destruct p.
  - destruct p as [a|e|X q k].
    + by rewrite decide_False by (simpl; lia).
    + by rewrite decide_False by (simpl; lia).
    + change (crash_after (S n) (Exec q k ≫= f) c)
        with (let '(r, c') := exec q c in crash_after n (k r ≫= f) c').
      simpl. destruct (exec q c) as [r c']. rewrite IH. simpl.
      destruct (decide (n ≤ length (trace (k r) c'))%nat);
        [by rewrite decide_True by lia|by rewrite decide_False by lia].
Qed.

End Programs.

(** Rewrite one statement of a run with its effect. *)
Ltac run_statement :=
  match goal with
  | |- context [run (execute ?q) ?c] => rewrite (run_execute q c)
  end.

(** Decide a closed proposition by evaluation. *)
Ltac decide_now := apply (bool_decide_unpack _); vm_compute; exact I.

(** Check the association rows of a closed image one by one. *)
Ltac check_rows :=
  let l := fresh "l" in
  let Hl := fresh "Hl" in
  intros l Hl; vm_compute in Hl;
  repeat (apply elem_of_cons in Hl as [->|Hl]; [split; decide_now|]);
  by apply elem_of_nil in Hl.

(** [store_ok] of a closed image. *)
Ltac store_ok_now :=
  split; [repeat split; decide_now|split; check_rows].

(** ** Conditions on the statements of a run *)

Section Guards.
Context (G : ∀ B, stmt B → connection → Prop).

Lemma guarded_bind {A B} (p : prog A) (f : A → prog B) (c : connection) :
  guarded G (p ≫= f) c
  ↔ guarded G p c ∧ ∀ a c', run p c = (Ok a, c') → guarded G (f a) c'.
Proof.
  revert c. induction p as [a|e|X q k IH]; intros c.
  - split; [intros H; split; [done|]|intros [_ H]; by apply H].
    intros a' c' [= <- <-]. done.
  - split; [intros _; split; [done|]|done]. by intros a c' [=].
  - change (guarded G (Exec q k ≫= f) c)
      with (G _ q c ∧ guarded G (k (exec q c).1 ≫= f) (exec q c).2).
    rewrite IH. simpl. destruct (exec q c) as [r c']. simpl. tauto.
Qed.

Lemma guarded_execute {B} (q : stmt B) (c : connection) :
  guarded G (execute q) c ↔ G _ q c.
Proof.
  unfold execute. simpl. destruct (exec q c) as [[b|e] c']; simpl; tauto.
Qed.

Lemma guarded_finally {A} (p : prog A) (h : prog unit) (c : connection) :
  guarded G p c → (∀ c', guarded G h c') → guarded G (finally p h) c.
Proof.
  intros Hp Hh. revert c Hp. induction p as [a|e|X q k IH]; intros c Hp.
  - simpl finally. apply guarded_bind. split; [apply Hh|done].
  - simpl finally. apply guarded_bind. split; [apply Hh|done].
  - destruct Hp as [Hq Hk]. split; [done|]. by apply IH.
Qed.

Lemma always_ret {A} (a : A) : always G (Ret a).
Proof. by intros c. Qed.

Lemma always_raise {A} (e : exn) : always G (@Raise A e).
Proof. by intros c. Qed.

Lemma always_bind {A B} (p : prog A) (f : A → prog B) :
  always G p → (∀ a, always G (f a)) → always G (p ≫= f).
Proof.
  intros Hp Hf c. apply guarded_bind. split; [apply Hp|].
  intros a c' _. apply Hf.
Qed.

Lemma always_execute {B} (q : stmt B) : (∀ c, G _ q c) → always G (execute q).
Proof. intros H c. by apply guarded_execute. Qed.

Lemma always_for_each {X} (l : list X) (body : X → prog unit) :
  (∀ x, always G (body x)) → always G (for_each l body).
Proof.
  intros H. induction l as [|x l IH]; [apply always_ret|].
  rewrite for_each_cons. apply always_bind; [apply H|done].
Qed.

Lemma always_mapM {X Y} (f : X → prog Y) (l : list X) :
  (∀ x, always G (f x)) → always G (mapM f l).
Proof.
  intros H. induction l as [|x l IH]; [apply always_ret|].
  rewrite mapM_cons. apply always_bind; [apply H|]. intros y.
  apply always_bind; [apply IH|]. intros ys. apply always_ret.
Qed.

Lemma always_finally {A} (p : prog A) (h : prog unit) :
  always G p → always G h → always G (finally p h).
Proof. intros Hp Hh c. apply guarded_finally; [apply Hp|apply Hh]. Qed.

(** *** Rules for [triple] *)

Lemma triple_ret {A} (a : A) (c : connection) (Q : A → connection → Prop) :
  Q a c → triple G c (Ret a) Q.
Proof. intros H. split; [done|]. by intros a' c' [= <- <-]. Qed.

Lemma triple_raise {A} (e : exn) (c : connection) (Q : A → connection → Prop) :
  triple G c (Raise e) Q.
Proof. split; [done|]. by intros a' c' [=]. Qed.

Lemma triple_bind {A B} (p : prog A) (f : A → prog B) (c : connection)
    (Q' : A → connection → Prop) (Q : B → connection → Prop) :
  triple G c p Q' →
  (∀ a c', Q' a c' → triple G c' (f a) Q) →
  triple G c (p ≫= f) Q.
Proof.
  intros [Hg Hq] Hf. split.
  - apply guarded_bind. split; [done|].
    intros a c' Hr. by apply Hf, Hq.
  - intros b c''. rewrite run_bind.
    destruct (run p c) as [[a|e] c'] eqn:Hr; [|done].
    intros Hb. by apply (Hf a c' (Hq a c' eq_refl)).
Qed.

Lemma triple_execute {B} (q : stmt B) (c : connection) (Q : B → connection → Prop) :
  G _ q c →
  (∀ b c', exec q c = (Ok b, c') → Q b c') →
  triple G c (execute q) Q.
Proof.
  intros Hg Hq. split; [by apply guarded_execute|].
  intros b c'. rewrite run_execute. apply Hq.
Qed.

Lemma triple_weaken {A} (p : prog A) (c : connection) (Q Q' : A → connection → Prop) :
  triple G c p Q → (∀ a c', Q a c' → Q' a c') → triple G c p Q'.
Proof. intros [Hg Hq] H. split; [done|]. intros a c' Hr. by apply H, Hq. Qed.

Lemma triple_always {A} (p : prog A) (c : connection) :
  always G p → triple G c p (λ _ _, True).
Proof. intros H. split; [apply H|done]. Qed.

(** A loop keeps what every turn keeps. *)
Lemma triple_for_each {X} (l : list X) (body : X → prog unit)
    (J : connection → Prop) (c : connection) :
  (∀ x c, x ∈ l → J c → triple G c (body x) (λ _, J)) →
  J c → triple G c (for_each l body) (λ _, J).
Proof.
  revert c. induction l as [|x l IH]; intros c Hb Hc; [by apply triple_ret|].
  rewrite for_each_cons. eapply triple_bind.
  - apply Hb; [by left|done].
  - intros [] c' Hc'. apply IH; [|done].
    intros y c'' Hy. apply Hb. by right.
Qed.

End Guards.

(** An invariant of connections that every guarded statement keeps holds
    all along a guarded run. *)
Section Invariant.
Context (I : connection → Prop) (G : ∀ B, stmt B → connection → Prop).
Hypothesis step : ∀ B (q : stmt B) c, I c → G _ q c → I (exec q c).2.

Lemma trace_invariant {A} (p : prog A) (c : connection) :
  I c → guarded G p c → Forall I (trace p c).
Proof.
  revert c. induction p as [a|e|X q k IH]; intros c Hc Hg; try by constructor.
  destruct Hg as [Hq Hk]. specialize (step _ q c Hc Hq).
  simpl. destruct (exec q c) as [r c']. constructor; [done|]. by apply IH.
Qed.

Lemma crash_invariant {A} (n : nat) (p : prog A) (c : connection) :
  I c → guarded G p c → I (crash_after n p c).
Proof.
  intros Hc Hg. pose proof (crash_after_in_trace n p c) as Hin.
  apply elem_of_cons in Hin as [->|Hin]; [done|].
  pose proof (trace_invariant p c Hc Hg) as HF.
  rewrite Forall_forall in HF. by apply HF.
Qed.

Lemma run_invariant {A} (p : prog A) (c : connection) :
  I c → guarded G p c → I (run p c).2.
Proof.
  intros Hc Hg. pose proof (run_in_trace p c) as Hin.
  apply elem_of_cons in Hin as [->|Hin]; [done|].
  pose proof (trace_invariant p c Hc Hg) as HF.
  rewrite Forall_forall in HF. by apply HF.
Qed.
End Invariant.

Lemma guarded_impl (G G' : ∀ B, stmt B → connection → Prop) {A} (p : prog A)
    (c : connection) :
  (∀ B (q : stmt B) c, G _ q c → G' _ q c) → guarded G p c → guarded G' p c.
Proof.
  intros HG. revert c. induction p as [a|e|X q k IH]; intros c; try done.
  intros [Hq Hk]. split; [by apply HG|by apply IH].
Qed.

Lemma guarded_true {A} (p : prog A) (c : connection) : guarded (λ _ _ _, True) p c.
Proof.
  revert c. induction p as [a|e|X q k IH]; intros c; done.
Qed.

(** ** The engine *)

Section Engine.

Lemma foldr_max_ge (ids : list Z) (j x : Z) :
  x ∈ j :: ids → x ≤ foldr Z.max j ids.
Proof.
  induction ids as [|k ids IH]; simpl.
  - intros ->%list_elem_of_singleton. lia.
  - intros [->|[->|H]%elem_of_cons]%elem_of_cons.
    + pose proof (IH (list_elem_of_here _ _)). lia.
    + lia.
    + pose proof (IH (list_elem_of_further _ _ _ H)). lia.
Qed.

Lemma next_rowid_above (ids : list Z) (i : Z) : i ∈ ids → i < next_rowid ids.
Proof.
  destruct ids as [|j ids]; [by intros ?%elem_of_nil|].
  intros H%foldr_max_ge. simpl. lia.
Qed.

Lemma next_rowid_fresh (ids : list Z) : next_rowid ids ∉ ids.
Proof. intros H%next_rowid_above. lia. Qed.

(** What a successful statement did to the image it ran on. *)
Lemma create_table_Ok (t : table) (db db' : database) :
  create_table t db = Ok db' →
  table_exists t db = false ∧ table_exists t db' = true
  ∧ articles db' = articles db ∧ authors db' = authors db
  ∧ keywords db' = keywords db ∧ article_keywords db' = article_keywords db
  ∧ article_authors db' = article_authors db
  ∧ ∀ t', table_exists t' db = true → table_exists t' db' = true.
Proof.
  unfold create_table. destruct (table_exists t db) eqn:E; [done|].
  intros [= <-]. split; [done|].
  destruct db as [[a|] [u|] [k|] [ak|] [aa|]]; destruct t;
    try discriminate E; repeat split; try done; by intros [].
Qed.

Lemma create_table_if_not_exists_Ok (t : table) (db db' : database) :
  create_table_if_not_exists t db = Ok db' →
  table_exists t db' = true
  ∧ articles db' = articles db ∧ authors db' = authors db
  ∧ keywords db' = keywords db ∧ article_keywords db' = article_keywords db
  ∧ article_authors db' = article_authors db
  ∧ ∀ t', table_exists t' db = true → table_exists t' db' = true.
Proof.
  unfold create_table_if_not_exists. destruct (table_exists t db) eqn:E.
  - intros [= <-]. done.
  - intros H%create_table_Ok. tauto.
Qed.

Lemma insert_article_Ok (a : Article) (db db' : database) :
  insert_article a db = Ok db' ↔
  is_Some (t_article db) ∧ (doi a ∉ dois db)
  ∧ db' = with_article (articles db ++ [a]) db.
Proof.
  unfold insert_article, dois, articles.
  destruct (t_article db) as [rows|]; simpl.
  - case_bool_decide as E; split.
    + done.
    + by intros (_ & ? & _).
    + intros [= <-]. done.
    + by intros (_ & _ & ->).
  - split; [done|]. by intros ([? [=]] & _).
Qed.

Lemma insert_keyword_Ok (kw : string) (db db' : database) (i : Z) :
  insert_keyword kw db = Ok (i, db') ↔
  is_Some (t_keyword db) ∧ (kw ∉ keyword_texts db)
  ∧ i = next_rowid (keyword_ids db)
  ∧ db' = with_keyword (keywords db ++ [mkKeywordRow i kw]) db.
Proof.
  unfold insert_keyword, keyword_texts, keyword_ids, keywords.
  destruct (t_keyword db) as [rows|]; simpl.
  - case_bool_decide as E; split.
    + done.
    + by intros (_ & ? & _).
    + intros [= <- <-]. done.
    + by intros (_ & _ & -> & ->).
  - split; [done|]. by intros ([? [=]] & _).
Qed.

Lemma insert_articlekeyword_Ok (d : string) (kid : Z) (db db' : database) :
  insert_articlekeyword d kid db = Ok db' ↔
  is_Some (t_articlekeyword db) ∧ (mkArticleKeyword d kid ∉ article_keywords db)
  ∧ db' = with_articlekeyword (article_keywords db ++ [mkArticleKeyword d kid]) db.
Proof.
  unfold insert_articlekeyword, article_keywords.
  destruct (t_articlekeyword db) as [rows|]; simpl.
  - case_bool_decide as E; split.
    + done.
    + by intros (_ & ? & _).
    + intros [= <-]. done.
    + by intros (_ & _ & ->).
  - split; [done|]. by intros ([? [=]] & _).
Qed.

End Engine.

(** ** Statements and invariants of the image *)

Section Steps.

(** Use what a successful CREATE TABLE says about the rows. *)
Ltac created H :=
  let E1 := fresh in let E2 := fresh in let E3 := fresh in
  let E4 := fresh in let E5 := fresh in
  first
    [ apply create_table_Ok in H as (_ & _ & E1 & E2 & E3 & E4 & E5 & _)
    | apply create_table_if_not_exists_Ok in H as (_ & E1 & E2 & E3 & E4 & E5 & _) ];
  rewrite ?E1, ?E2, ?E3, ?E4, ?E5.

(** The four ways a statement can leave the connection. *)
Lemma exec_cases {B} (q : stmt B) (c : connection) :
  (exec q c).2 = c
  ∨ (∃ db', writes q (view c) db' ∧ (exec q c).2 = mkConnection (disk c) (Some db'))
  ∨ (¬ no_commit _ q c ∧ (exec q c).2 = mkConnection (view c) None)
  ∨ (¬ no_rollback _ q c ∧ (exec q c).2 = mkConnection (disk c) None).
Proof.
  destruct q; simpl; unfold write, unit_write;
    try (by left); try (right; right; left; tauto); try (right; right; right; tauto).
  - destruct (create_table t (view c)) eqn:E; [right; left; eauto|by left].
  - destruct (create_table_if_not_exists t (view c)) eqn:E; [right; left; eauto|by left].
  - destruct (insert_article a (view c)) eqn:E; [right; left; eauto|by left].
  - destruct (insert_keyword kw (view c)) as [[i db']|] eqn:E; [right; left|by left].
    exists db'. split; [by exists i|done].
  - destruct (insert_articlekeyword d kid (view c)) eqn:E; [right; left; eauto|by left].
Qed.

Lemma both_step (P : database → Prop) {B} (q : stmt B) (c : connection) :
  both P c → (∀ db', writes q (view c) db' → P db') → both P (exec q c).2.
Proof.
  intros [Hd Hv] Hw.
  destruct (exec_cases q c) as [->|[(db' & H & ->)|[[_ ->]|[_ ->]]]]; try done.
  split; [done|]. by apply Hw.
Qed.

(** The disk changes at COMMIT only. *)
Lemma disk_step {B} (q : stmt B) (c : connection) :
  no_commit _ q c → disk (exec q c).2 = disk c.
Proof.
  intros Hq.
  by destruct (exec_cases q c) as [->|[(db' & H & ->)|[[? ->]|[_ ->]]]].
Qed.

Lemma NoDup_snoc {X} (l : list X) (x : X) : NoDup l → x ∉ l → NoDup (l ++ [x]).
Proof.
  intros Hl Hx. apply NoDup_app. split; [done|]. split; [|apply NoDup_singleton].
  intros y Hy ->%list_elem_of_singleton. done.
Qed.

(** The declared keys hold whatever the program sends. *)
Lemma keys_unique_writes {B} (q : stmt B) (db db' : database) :
  keys_unique db → writes q db db' → keys_unique db'.
Proof.
  intros (Hd & Hi & Ht & Hak & Haa). unfold keys_unique, dois, keyword_ids, keyword_texts.
  destruct q; simpl; try done.
  - intros H. by created H.
  - intros H. by created H.
  - intros (_ & Hn & ->)%insert_article_Ok.
    repeat split; try done. change (NoDup (doi <$> articles db ++ [a])).
    rewrite fmap_app. by apply NoDup_snoc.
  - intros [i (_ & Hn & -> & ->)%insert_keyword_Ok].
    repeat split; try done.
    + change (NoDup (k_id <$> keywords db ++ [mkKeywordRow (next_rowid (keyword_ids db)) kw])).
      rewrite fmap_app. apply NoDup_snoc; [done|apply next_rowid_fresh].
    + change (NoDup (k_keyword <$> keywords db ++ [mkKeywordRow (next_rowid (keyword_ids db)) kw])).
      rewrite fmap_app. by apply NoDup_snoc.
  - intros (_ & Hn & ->)%insert_articlekeyword_Ok.
    repeat split; try done. by apply NoDup_snoc.
Qed.

(** Referential integrity holds as long as association rows are inserted
    for rows that are there. *)
Lemma referential_integrity_writes {B} (q : stmt B) (c : connection) (db' : database) :
  referential_integrity (view c) → links_to_seen _ q c → writes q (view c) db' →
  referential_integrity db'.
Proof.
  intros [Hk Ha]. unfold referential_integrity, dois, keyword_ids, author_ids.
  destruct q; simpl; try done.
  - intros _ H. by created H.
  - intros _ H. by created H.
  - intros _ (_ & Hn & ->)%insert_article_Ok.
    change (articles (with_article (articles (view c) ++ [a]) (view c)))
      with (articles (view c) ++ [a]).
    rewrite fmap_app. split.
    + intros l Hl. destruct (Hk l Hl). split; [|done]. apply elem_of_app. by left.
    + intros l Hl. destruct (Ha l Hl). split; [|done]. apply elem_of_app. by left.
  - intros _ [i (_ & Hn & -> & ->)%insert_keyword_Ok].
    split; [|done]. intros l Hl. destruct (Hk l Hl). split; [done|].
    change (keyword_id l ∈ k_id <$> keywords (view c)
              ++ [mkKeywordRow (next_rowid (keyword_ids (view c))) kw]).
    rewrite fmap_app. apply elem_of_app. by left.
  - intros [Hd Hi] (_ & Hn & ->)%insert_articlekeyword_Ok.
    split; [|done]. intros l Hl.
    change (l ∈ article_keywords (view c) ++ [mkArticleKeyword d kid]) in Hl.
    apply elem_of_app in Hl as [Hl| ->%list_elem_of_singleton]; [by apply Hk|done].
Qed.

Lemma keywords_normalized_writes {B} (q : stmt B) (c : connection) (db db' : database) :
  keywords_normalized db → orm_values _ q c → writes q db db' →
  keywords_normalized db'.
Proof.
  intros Hk. unfold keywords_normalized.
  destruct q; simpl; try done.
  - intros _ H. by created H.
  - intros _ H. by created H.
  - intros _ (_ & Hn & ->)%insert_article_Ok. done.
  - intros Hl [i (_ & Hn & -> & ->)%insert_keyword_Ok] r Hr.
    change (r ∈ keywords db ++ [mkKeywordRow (next_rowid (keyword_ids db)) kw]) in Hr.
    apply elem_of_app in Hr as [Hr| ->%list_elem_of_singleton]; [by apply Hk|done].
  - intros _ (_ & Hn & ->)%insert_articlekeyword_Ok. done.
Qed.

Lemma all_2024_writes {B} (q : stmt B) (c : connection) (db db' : database) :
  all_2024 db → orm_values _ q c → writes q db db' → all_2024 db'.
Proof.
  intros Hk. unfold all_2024.
  destruct q; simpl; try done.
  - intros _ H. by created H.
  - intros _ H. by created H.
  - intros Hy (_ & Hn & ->)%insert_article_Ok r Hr.
    change (r ∈ articles db ++ [a]) in Hr.
    apply elem_of_app in Hr as [Hr| ->%list_elem_of_singleton]; [by apply Hk|done].
  - intros _ [i (_ & Hn & -> & ->)%insert_keyword_Ok]. done.
  - intros _ (_ & Hn & ->)%insert_articlekeyword_Ok. done.
Qed.

(** Without ROLLBACK the transaction never loses sight of a row. *)
Lemma grows_writes {B} (q : stmt B) (db db' : database) :
  writes q db db' →
  dois db ⊆ dois db' ∧ keyword_ids db ⊆ keyword_ids db'.
Proof.
  unfold dois, keyword_ids. destruct q; simpl; try done.
  - intros H. by created H.
  - intros H. by created H.
  - intros (_ & Hn & ->)%insert_article_Ok. split; [|done].
    change (doi <$> articles db ⊆ doi <$> articles db ++ [a]).
    rewrite fmap_app. intros x Hx. apply elem_of_app. by left.
  - intros [i (_ & Hn & -> & ->)%insert_keyword_Ok]. split; [done|].
    change (k_id <$> keywords db
              ⊆ k_id <$> keywords db ++ [mkKeywordRow (next_rowid (keyword_ids db)) kw]).
    rewrite fmap_app. intros x Hx. apply elem_of_app. by left.
  - intros (_ & Hn & ->)%insert_articlekeyword_Ok. done.
Qed.

Lemma grows_refl (c : connection) : grows c c.
Proof. by split. Qed.

Lemma grows_trans (c1 c2 c3 : connection) : grows c1 c2 → grows c2 c3 → grows c1 c3.
Proof. intros [H1 H2] [H3 H4]. split; by etrans. Qed.

Lemma grows_step {B} (q : stmt B) (c : connection) :
  no_rollback _ q c → grows c (exec q c).2.
Proof.
  intros Hq.
  destruct (exec_cases q c) as [->|[(db' & H & ->)|[[_ ->]|[? ->]]]];
    [apply grows_refl| |by split|done].
  by apply grows_writes in H.
Qed.

Lemma grows_run {A} (p : prog A) (c : connection) :
  guarded no_rollback p c → grows c (run p c).2.
Proof.
  apply (run_invariant (grows c) no_rollback); [|apply grows_refl].
  intros B q c' Hc Hq. eapply grows_trans; [done|by apply grows_step].
Qed.

End Steps.

(** ** The statements of the notebooks *)

Section NotebookGuards.

Lemma select_keyword_Ok (kw : string) (c c' : connection) (rows : list keyword_row) :
  exec (SelectKeyword kw) c = (Ok rows, c') →
  c' = c ∧ rows = filter (λ r, k_keyword r = kw) (keywords (view c))
  ∧ is_Some (t_keyword (view c)).
Proof.
  simpl. unfold select_keyword, keywords.
  destruct (t_keyword (view c)) as [l|]; [|done].
  intros [= <- <-]. eauto.
Qed.

Lemma always_create_all (G : ∀ B, stmt B → connection → Prop) (md : list table) :
  (∀ t c, G _ (TableInfo t) c) → (∀ t c, G _ (CreateTable t) c) →
  (∀ c, G _ Commit c) →
  always G (create_all md).
Proof.
  intros H1 H2 H3. unfold create_all. apply always_bind.
  - induction md as [|t md IH]; [apply always_ret|]. rewrite missing_tables_cons.
    apply always_bind; [by apply always_execute|]. intros there.
    apply always_bind; [done|]. intros rest. apply always_ret.
  - intros missing. apply always_bind; [|intros; by apply always_execute].
    apply always_for_each. intros t. by apply always_execute.
Qed.

Lemma always_create_tables (G : ∀ B, stmt B → connection → Prop) (l : list table) :
  (∀ t c, G _ (CreateTableIfNotExists t) c) → (∀ c, G _ Commit c) →
  always G (Sqlite.create_tables l).
Proof.
  intros H1 H2. apply always_for_each. intros t.
  apply always_bind; [by apply always_execute|]. intros _. by apply always_execute.
Qed.

(** A guarded program without ROLLBACK leaves a transaction that sees at
    least what it saw. *)
Lemma triple_grows (G : ∀ B, stmt B → connection → Prop) {A} (p : prog A)
    (c : connection) :
  always G p → always no_rollback p → triple G c p (λ _ c', grows c c').
Proof.
  intros HG Hn. split; [apply HG|]. intros a c' Hr.
  pose proof (grows_run p c (Hn c)) as H. by rewrite Hr in H.
Qed.

(** *** Notebook 4 *)

Lemma keyword_object_ok_grows (c c' : connection) (o : Keyword.t) :
  grows c c' → keyword_object_ok c o → keyword_object_ok c' o.
Proof.
  intros [_ Hg]. unfold keyword_object_ok. destruct (Keyword.id o); [|done].
  apply Hg.
Qed.

Lemma triple_keyword_object (kw : string) (c : connection) :
  triple orm_guard c (Relationships.keyword_object kw)
    (λ o c', c' = c ∧ keyword_object_ok c o).
Proof.
  unfold Relationships.keyword_object.
  eapply triple_bind.
  { apply triple_execute; [done|]. intros rows c' H. exact H. }
  intros rows c' (-> & -> & _)%select_keyword_Ok.
  destruct (filter _ _) as [|r [|r' rows]] eqn:E; simpl.
  - apply triple_ret. split; [done|]. apply lower_idemp.
  - apply triple_ret. split; [done|].
    assert (r ∈ filter (λ r, k_keyword r = lower kw) (keywords (view c))) as Hr
      by (rewrite E; by left).
    apply list_elem_of_filter in Hr as [_ Hr].
    unfold keyword_object_ok, keyword_ids. simpl.
    by apply list_elem_of_fmap_2.
  - apply triple_raise.
Qed.

Lemma triple_keyword_objects (kws : list string) (c : connection) :
  triple orm_guard c (mapM Relationships.keyword_object kws)
    (λ objs c', c' = c ∧ Forall (keyword_object_ok c) objs).
Proof.
  induction kws as [|kw kws IH]; [by apply triple_ret|]. rewrite mapM_cons.
  eapply triple_bind; [apply triple_keyword_object|].
  intros o c' [-> Ho]. eapply triple_bind; [apply IH|].
  intros objs c' [-> Hobjs]. apply triple_ret. split; [done|]. by constructor.
Qed.

Lemma insert_keyword_seen (kw : string) (c c' : connection) (i : Z) :
  exec (InsertKeyword kw) c = (Ok i, c') →
  grows c c' ∧ i ∈ keyword_ids (view c').
Proof.
  intros H. split.
  - pose proof (grows_step (InsertKeyword kw) c I) as Hg. by rewrite H in Hg.
  - simpl in H. unfold write in H.
    destruct (insert_keyword kw (view c)) as [[j db']|] eqn:E; [|done].
    injection H as <- <-. apply insert_keyword_Ok in E as (_ & _ & -> & ->).
    unfold keyword_ids at 1, view. simpl.
    change (next_rowid (keyword_ids (view c))
              ∈ k_id <$> keywords (view c)
                  ++ [mkKeywordRow (next_rowid (keyword_ids (view c))) kw]).
    rewrite fmap_app. apply elem_of_app. right. by left.
Qed.

Lemma triple_keyword_ids (objs : list Keyword.t) (c : connection) :
  Forall (keyword_object_ok c) objs →
  triple orm_guard c (mapM Relationships.keyword_id_of objs)
    (λ ids c', grows c c' ∧ Forall (λ i, i ∈ keyword_ids (view c')) ids).
Proof.
  revert c. induction objs as [|o objs IH]; intros c Hobjs.
  { apply triple_ret. split; [apply grows_refl|done]. }
  apply Forall_cons in Hobjs as [Ho Hobjs]. rewrite mapM_cons.
  eapply triple_bind with (Q' := λ i c', grows c c' ∧ i ∈ keyword_ids (view c')).
  - unfold Relationships.keyword_id_of, keyword_object_ok in *.
    destruct (Keyword.id o) as [i|].
    + apply triple_ret. split; [apply grows_refl|done].
    + apply triple_execute; [done|]. intros i c'. apply insert_keyword_seen.
  - intros i c' [Hg Hi]. eapply triple_bind.
    + apply IH. eapply Forall_impl; [done|].
      intros o'. by apply keyword_object_ok_grows.
    + intros ids c'' [Hg' Hids]. apply triple_ret. split.
      * by eapply grows_trans.
      * constructor; [|done]. by apply Hg'.
Qed.

Lemma insert_article_seen (a : Article) (c c' : connection) :
  exec (InsertArticle a) c = (Ok tt, c') →
  grows c c' ∧ doi a ∈ dois (view c').
Proof.
  intros H. split.
  - pose proof (grows_step (InsertArticle a) c I) as Hg. by rewrite H in Hg.
  - simpl in H. unfold write, unit_write in H.
    destruct (insert_article a (view c)) as [db'|] eqn:E; [|done].
    injection H as <-. apply insert_article_Ok in E as (_ & _ & ->).
    unfold view. simpl.
    change (doi a ∈ doi <$> articles (view c) ++ [a]).
    rewrite fmap_app. apply elem_of_app. right. by left.
Qed.

Lemma triple_links (G : ∀ B, stmt B → connection → Prop) (d : string) (ids : list Z)
    (c : connection) :
  (∀ B (q : stmt B) c, links_to_seen _ q c →
     match q with InsertArticleKeyword _ _ => True | _ => False end → G _ q c) →
  d ∈ dois (view c) → Forall (λ i, i ∈ keyword_ids (view c)) ids →
  triple G c (for_each ids (λ i, execute (InsertArticleKeyword d i))) (λ _ _, True).
Proof.
  intros HG Hd Hids.
  eapply triple_weaken.
  - apply (triple_for_each G ids _
      (λ c, d ∈ dois (view c) ∧ Forall (λ i, i ∈ keyword_ids (view c)) ids));
      [|done].
    intros i c1 Hi [Hd1 Hids1]. apply triple_execute.
    + apply HG; [|done]. split; [done|].
      rewrite Forall_forall in Hids1. by apply Hids1.
    + intros [] c2 H.
      pose proof (grows_step (InsertArticleKeyword d i) c1 I) as [Hg1 Hg2].
      rewrite H in Hg1, Hg2. split; [by apply Hg1|].
      eapply Forall_impl; [done|]. intros j. apply Hg2.
  - done.
Qed.

Lemma always_add_paper (p : item) : always orm_guard (Relationships.add_paper p).
Proof.
  intros c.
  cut (triple orm_guard c (Relationships.add_paper p) (λ _ _, True)); [by intros []|].
  unfold Relationships.add_paper.
  eapply triple_bind; [apply triple_keyword_objects|].
  intros objs c' [-> Hobjs]. unfold Relationships.session_commit.
  eapply triple_bind; [by apply triple_keyword_ids|].
  intros ids c1 [Hg1 Hids].
  eapply triple_bind with
    (Q' := λ _ c2, doi (Relationships.new_article p) ∈ dois (view c2)
                   ∧ Forall (λ i, i ∈ keyword_ids (view c2)) ids).
  { apply triple_execute; [done|]. intros [] c2 [Hg2 Hd]%insert_article_seen.
    split; [done|]. eapply Forall_impl; [done|]. intros i. apply Hg2. }
  intros [] c2 [Hd Hids2].
  eapply triple_bind.
  { apply triple_links; [|done|done]. intros B q c3 H Hq. split; [done|].
    by destruct q. }
  intros [] c3 _. by apply triple_execute.
Qed.

Lemma always_relationships (data : list item) (other : string) :
  always orm_guard (Relationships.notebook data other).
Proof.
  unfold Relationships.notebook.
  apply always_bind; [by apply always_create_all|]. intros _.
  apply always_bind; [|intros _; by apply always_execute].
  apply always_finally; [|by apply always_execute].
  apply always_for_each, always_add_paper.
Qed.

(** *** Notebook 3 *)

Lemma always_sqlmodel (paper_data : item) :
  always orm_guard (SqlModel.notebook paper_data).
Proof.
  unfold SqlModel.notebook.
  do 3 (apply always_bind; [by apply always_create_all|]; intros _).
  apply always_finally; [|by apply always_execute].
  apply always_bind; [by apply always_execute|]. intros _.
  apply always_bind; [by apply always_execute|]. intros _.
  apply always_for_each. intros kw.
  apply always_bind; [|intros; by apply always_execute].
  apply always_execute. intros c. split; [done|]. apply lower_idemp.
Qed.

(** *** Notebook 2 *)

Lemma always_sqlite (year : Z) (paper : item) :
  always links_to_seen (Sqlite.notebook year paper).
Proof.
  intros c.
  cut (triple links_to_seen c (Sqlite.notebook year paper) (λ _ _, True)); [by intros []|].
  unfold Sqlite.notebook.
  eapply triple_bind; [by apply triple_always, always_create_tables|]. intros _ c1 _.
  eapply triple_bind; [by apply triple_always, always_create_tables|]. intros _ c2 _.
  eapply triple_bind with (Q' := λ _ c3, item_doi paper ∈ dois (view c3)).
  { unfold Sqlite.insert_article_cell.
    eapply triple_bind with (Q' := λ _ c3, item_doi paper ∈ dois (view c3)).
    - apply triple_execute; [done|]. by intros [] c3 [_ Hd]%insert_article_seen.
    - intros [] c3 Hd. apply triple_execute; [done|]. by intros [] c4 [= <-]. }
  intros [] c3 Hd.
  eapply triple_bind with (Q' := λ _ c4, item_doi paper ∈ dois (view c4)).
  { eapply triple_weaken.
    - apply triple_grows.
      + unfold Sqlite.insert_keywords_cell.
        apply always_bind; [|intros; by apply always_execute].
        apply always_for_each. intros kw.
        apply always_bind; [by apply always_execute|]. intros. apply always_ret.
      + unfold Sqlite.insert_keywords_cell.
        apply always_bind; [|intros; by apply always_execute].
        apply always_for_each. intros kw.
        apply always_bind; [by apply always_execute|]. intros. apply always_ret.
    - intros _ c4 [Hg _]. by apply Hg. }
  intros [] c4 Hd4. unfold Sqlite.associate_cell.
  eapply triple_weaken.
  - apply (triple_for_each links_to_seen _ _ (λ c, item_doi paper ∈ dois (view c)));
      [|done].
    intros kw c5 _ Hd5. unfold Sqlite.associate.
    eapply triple_bind.
    { apply triple_execute; [done|]. intros rows c' H. exact H. }
    intros rows c' (-> & -> & _)%select_keyword_Ok.
    destruct (filter _ _) as [|r rows] eqn:E; simpl; [apply triple_raise|].
    assert (r ∈ filter (λ r, k_keyword r = kw) (keywords (view c5))) as Hr
      by (rewrite E; by left).
    apply list_elem_of_filter in Hr as [_ Hr].
    apply triple_execute.
    + split; [done|]. by apply list_elem_of_fmap_2.
    + intros [] c6 H.
      pose proof (grows_step (InsertArticleKeyword (item_doi paper) (k_id r)) c5 I)
        as [Hg _].
      rewrite H in Hg. by apply Hg.
  - done.
Qed.

End NotebookGuards.

(** ** What holds at every moment of a notebook run *)

Section Moments.

Lemma store_ok_step {B} (q : stmt B) (c : connection) :
  both store_ok c → links_to_seen _ q c → both store_ok (exec q c).2.
Proof.
  intros Hc Hq. apply both_step; [done|].
  intros db' Hw. destruct Hc as [_ [Hk Hr]]. split.
  - by eapply keys_unique_writes.
  - by eapply referential_integrity_writes.
Qed.

Lemma orm_store_ok_step {B} (q : stmt B) (c : connection) :
  both orm_store_ok c → orm_guard _ q c → both orm_store_ok (exec q c).2.
Proof.
  intros Hc [Hq1 Hq2]. apply both_step; [done|].
  intros db' Hw. destruct Hc as [_ ([Hk Hr] & Hn & Hy)].
  split; [split|split].
  - by eapply keys_unique_writes.
  - by eapply referential_integrity_writes.
  - by eapply keywords_normalized_writes.
  - by eapply all_2024_writes.
Qed.

Lemma store_ok_empty : store_ok empty_db.
Proof.
  split; [repeat split; apply NoDup_nil_2|].
  split; intros l Hl; by apply elem_of_nil in Hl.
Qed.

Lemma orm_store_ok_empty : orm_store_ok empty_db.
Proof.
  split; [apply store_ok_empty|].
  split; intros l Hl; by apply elem_of_nil in Hl.
Qed.

(** The declared keys and referential integrity survive notebook 2 from
    any connection that has them. *)
Lemma sqlite_keeps_store_ok (year : Z) (paper : item) (c : connection) (n : nat) :
  both store_ok c → both store_ok (crash_after n (Sqlite.notebook year paper) c).
Proof.
  intros Hc. apply (crash_invariant (both store_ok) links_to_seen); [|done|].
  - intros B q c'. apply store_ok_step.
  - apply always_sqlite.
Qed.

Lemma sqlmodel_keeps_store_ok (paper : item) (c : connection) (n : nat) :
  both orm_store_ok c → both orm_store_ok (crash_after n (SqlModel.notebook paper) c).
Proof.
  intros Hc. apply (crash_invariant (both orm_store_ok) orm_guard); [|done|].
  - intros B q c'. apply orm_store_ok_step.
  - apply always_sqlmodel.
Qed.

Lemma relationships_keeps_store_ok (data : list item) (other : string)
    (c : connection) (n : nat) :
  both orm_store_ok c →
  both orm_store_ok (crash_after n (Relationships.notebook data other) c).
Proof.
  intros Hc. apply (crash_invariant (both orm_store_ok) orm_guard); [|done|].
  - intros B q c'. apply orm_store_ok_step.
  - apply always_relationships.
Qed.

Lemma moment_store_ok (r : notebook_run) (n : nat) : both store_ok (moment r n).
Proof.
  destruct r as [year paper|paper|data other]; simpl.
  - apply sqlite_keeps_store_ok. split; apply store_ok_empty.
  - pose proof (sqlmodel_keeps_store_ok paper (connect empty_db) n)
      as [[H1 _] [H2 _]]; [split; apply orm_store_ok_empty|]. by split.
  - pose proof (relationships_keeps_store_ok data other (connect empty_db) n)
      as [[H1 _] [H2 _]]; [split; apply orm_store_ok_empty|]. by split.
Qed.

End Moments.

(** ** Removing the database file *)

Section RemoveDb.

Lemma remove_db_file_removes (path : string) (fs : filesystem) :
  removes (remove_db_file path) path fs.
Proof.
  unfold removes, remove_db_file, os_path_exists, os_remove.
  destruct (fs !! path) as [db|] eqn:E.
  - rewrite bool_decide_eq_true_2 by eauto.
    exists (delete path fs). split; [done|].
    split; [apply lookup_delete_eq|]. split; [done|].
    split; [intros other H; by apply lookup_delete_ne|].
    rewrite lookup_delete_eq.
    by rewrite bool_decide_eq_false_2 by (by intros [? ?]).
  - rewrite bool_decide_eq_false_2 by (by intros [? ?]).
    exists fs. rewrite E.
    by rewrite bool_decide_eq_false_2 by (by intros [? ?]).
Qed.

(** After [remove_db] the notebook connects to an empty file. *)
Lemma open_after_remove (path : string) (fs fs' : filesystem) :
  remove_db_file path fs = inr fs' → open_file path fs' = connect empty_db.
Proof.
  intros H. destruct (remove_db_file_removes path fs) as (fs'' & H1 & H2 & _).
  rewrite H in H1. injection H1 as <-. unfold open_file. by rewrite H2.
Qed.

End RemoveDb.

(** C10. [remove_db] is total and idempotent, in each of the three
    notebooks: whatever the directory holds, the call returns without an
    exception and the database file is absent afterwards; when the file was
    absent already nothing is removed; no other file is touched; a second
    call leaves the directory as the first one left it. *)
Theorem remove_db_total_idempotent (fs : filesystem) :
  removes Sqlite.remove_db Sqlite.db_file fs
  ∧ removes SqlModel.remove_db SqlModel.db_file fs
  ∧ removes Relationships.remove_db Relationships.db_file fs.
Proof.
  repeat split; apply remove_db_file_removes.
Qed.

(** ** Inserting an article twice *)

Section ArticleTwice.

Lemma run_insert_article_cell (year : Z) (paper : item) (db : database) :
  run (Sqlite.insert_article_cell year paper) (connect db)
  = match insert_article (Sqlite.recent_paper year paper) db with
    | Ok db' => (Ok tt, connect db')
    | Err e => (Err e, connect db)
    end.
Proof.
  unfold Sqlite.insert_article_cell. rewrite run_bind. run_statement. simpl.
  unfold write, unit_write, view. simpl.
  destruct (insert_article _ db) as [db'|e]; simpl; [|done].
  done.
Qed.


End ArticleTwice.



(** ** Initialising the schema *)

Section Schema.

Lemma filter_none {X} (P : X → Prop) `{∀ x, Decision (P x)} (l : list X) :
  (∀ x, x ∈ l → ¬ P x) → filter P l = [].
Proof.
  intros Hl. destruct (filter P l) as [|x l'] eqn:E; [done|].
  assert (x ∈ filter P l) as [Hx Hin]%list_elem_of_filter by (rewrite E; by left).
  by destruct (Hl x Hin).
Qed.

Lemma create_table_other (t t' : table) (db db' : database) :
  create_table t db = Ok db' → t' ≠ t → table_exists t' db' = table_exists t' db.
Proof.
  unfold create_table. destruct (table_exists t db); [done|].
  intros [= <-] Hne. by destruct t, t'.
Qed.

Lemma create_table_missing (t : table) (db : database) :
  table_exists t db = false → ∃ db', create_table t db = Ok db'.
Proof. intros H. unfold create_table. rewrite H. eauto. Qed.

Lemma same_rows_refl (db : database) : same_rows db db.
Proof. by repeat split. Qed.

Lemma same_rows_trans (db1 db2 db3 : database) :
  same_rows db1 db2 → same_rows db2 db3 → same_rows db1 db3.
Proof.
  intros (? & ? & ? & ? & ?) (? & ? & ? & ? & ?). repeat split; congruence.
Qed.

Lemma row_count_same (t : table) (db db' : database) :
  same_rows db db' → table_exists t db = true → table_exists t db' = true →
  row_count t db' = row_count t db.
Proof.
  unfold same_rows, articles, authors, keywords, article_keywords, article_authors.
  intros (H1 & H2 & H3 & H4 & H5) He He'.
  destruct db as [[a|] [u|] [k|] [ak|] [aa|]], db' as [[a'|] [u'|] [k'|] [ak'|] [aa'|]];
    destruct t; simpl in *; try discriminate He; try discriminate He'; congruence.
Qed.

Lemma run_missing_tables (md : list table) (c : connection) :
  run (missing_tables md) c
  = (Ok (filter (λ t, table_exists t (view c) = false) md), c).
Proof.
  induction md as [|t md IH]; [done|].
  rewrite missing_tables_cons, run_bind. run_statement. simpl.
  rewrite run_bind, IH. simpl. rewrite filter_cons.
  destruct (table_exists t (view c)); by case_decide.
Qed.

Lemma run_create_tables (l : list table) (c : connection) :
  NoDup l → (∀ t, t ∈ l → table_exists t (view c) = false) →
  ∃ c',
    run (for_each l (λ t, execute (CreateTable t))) c = (Ok tt, c')
    ∧ disk c' = disk c
    ∧ same_rows (view c) (view c')
    ∧ ∀ t, table_exists t (view c') = table_exists t (view c) || bool_decide (t ∈ l).
Proof.
  revert c. induction l as [|t l IH]; intros c Hnd Hl.
  - exists c. repeat split; try done. intros t.
    rewrite bool_decide_eq_false_2 by apply not_elem_of_nil. by rewrite orb_false_r.
  - apply NoDup_cons in Hnd as [Ht Hnd].
    destruct (create_table_missing t (view c)) as [db1 H1]; [apply Hl; by left|].
    rewrite for_each_cons, run_bind. run_statement. simpl.
    unfold write, unit_write. rewrite H1.
    destruct (IH (mkConnection (disk c) (Some db1)) Hnd) as (c' & Hr & Hd & Hs & He).
    { intros t' Ht'. unfold view. simpl.
      rewrite (create_table_other t t' _ _ H1) by (by intros ->).
      apply Hl. by right. }
    exists c'. rewrite Hr. split; [done|]. split; [done|]. split.
    + eapply same_rows_trans; [|done]. unfold view at 2. simpl.
      apply create_table_Ok in H1 as (_ & _ & ? & ? & ? & ? & ? & _). by repeat split.
    + intros t'. rewrite He. unfold view at 1. simpl.
      destruct (decide (t' = t)) as [->|Hne].
      * apply create_table_Ok in H1 as (-> & -> & _). simpl.
        symmetry. apply bool_decide_eq_true. by left.
      * rewrite (create_table_other t t' _ _ H1) by done.
        f_equal. apply bool_decide_ext. rewrite elem_of_cons.
        split; [by right|by intros [?|?]].
Qed.

Lemma create_all_initialises (md : list table) (db : database) :
  NoDup md → initialises (create_all md) md db.
Proof.
  intros Hnd. unfold initialises, create_all.
  pose (c := connect db).
  destruct (run_create_tables
              (filter (λ t, table_exists t (view c) = false) md) c)
    as (c' & Hr & Hd & Hs & He).
  { by apply NoDup_filter. }
  { by intros t [? _]%list_elem_of_filter. }
  exists (view c').
  assert (∀ t, table_exists t db = true → table_exists t (view c') = true) as Hkeep.
  { intros t Ht. rewrite He. change (view c) with db. by rewrite Ht. }
  assert (∀ t, t ∈ md → table_exists t (view c') = true) as Hall.
  { intros t Ht. rewrite He. change (view c) with db.
    destruct (table_exists t db) eqn:E; [done|]. simpl.
    apply bool_decide_eq_true. by apply list_elem_of_filter. }
  split; [|split; [done|split; [|split; [done|]]]].
  - rewrite run_bind, run_missing_tables. fold c. rewrite run_bind, Hr.
    by run_statement.
  - intros t Ht. split; [by apply Hkeep|]. by apply row_count_same; [|done|apply Hkeep].
  - rewrite run_bind, run_missing_tables.
    change (view (connect (view c'))) with (view c').
    rewrite filter_none.
    + done.
    + intros t Ht. by rewrite Hall.
Qed.

Lemma create_table_if_not_exists_total (t : table) (db : database) :
  ∃ db', create_table_if_not_exists t db = Ok db'.
Proof.
  unfold create_table_if_not_exists, create_table.
  destruct (table_exists t db); eauto.
Qed.

(** One cell [CREATE TABLE IF NOT EXISTS; commit]. *)
Lemma run_create_tables_sqlite (l : list table) (db : database) :
  ∃ db',
    run (Sqlite.create_tables l) (connect db) = (Ok tt, connect db')
    ∧ same_rows db db'
    ∧ (∀ t, table_exists t db = true → table_exists t db' = true)
    ∧ (∀ t, t ∈ l → table_exists t db' = true)
    ∧ ((∀ t, t ∈ l → table_exists t db = true) → db' = db).
Proof.
  revert db. induction l as [|t l IH]; intros db.
  - exists db. repeat split; try done. by intros t ?%elem_of_nil.
  - destruct (create_table_if_not_exists_total t db) as [db1 H1].
    destruct (IH db1) as (db' & Hr & Hs & Hk & Ha & Hid).
    exists db'. unfold Sqlite.create_tables, connect in *.
    rewrite for_each_cons, run_bind, run_bind. run_statement. simpl.
    unfold write, unit_write, view. simpl. rewrite H1. simpl.
    pose proof H1 as (He & ? & ? & ? & ? & ? & Hm)%create_table_if_not_exists_Ok.
    split; [exact Hr|]. split; [|split; [|split]].
    + eapply same_rows_trans; [|done]. by repeat split.
    + intros t' Ht'. by apply Hk, Hm.
    + intros t' [->|Ht']%elem_of_cons; [by apply Hk|by apply Ha].
    + intros Hall. assert (db1 = db) as ->.
      { unfold create_table_if_not_exists in H1.
        rewrite Hall in H1 by (by left). by injection H1. }
      apply Hid. intros t' Ht'. apply Hall. by right.
Qed.

Lemma create_tables_initialises (l : list table) (db : database) :
  initialises (Sqlite.create_tables l) l db.
Proof.
  destruct (run_create_tables_sqlite l db) as (db' & Hr & Hs & Hk & Ha & _).
  exists db'. split; [done|]. split; [done|]. split; [|split; [done|]].
  - intros t Ht. split; [by apply Hk|]. by apply row_count_same; [|done|apply Hk].
  - destruct (run_create_tables_sqlite l db') as (db'' & Hr' & _ & _ & _ & Hid).
    rewrite Hr'. by rewrite (Hid Ha).
Qed.

End Schema.

(** C6. Schema initialisation is idempotent, for [create_all] of the
    SQLModel notebooks and for the [CREATE TABLE IF NOT EXISTS] cells of the
    raw-SQL notebook alike: on any store, initialised or not, populated or
    not, it raises no exception; it drops no table and leaves every row in
    place, so every table that was there counts as many rows as before; and
    applying it again to the store it leaves changes nothing. *)
Theorem schema_initialisation_idempotent (metadata tables : list table) (db : database)
    (Hmetadata : NoDup metadata) :
  initialises (create_all metadata) metadata db
  ∧ initialises (Sqlite.create_tables tables) tables db.
Proof.
  split; [by apply create_all_initialises|apply create_tables_initialises].
Qed.

Lemma schema_initialisation_idempotent_witness :
  initialises (create_all Relationships.metadata) Relationships.metadata
    (with_article [mkArticle "10.26434/chemrxiv-2024-jjdsq" "LANaPDB" 2024 None]
       empty_db)
  ∧ initialises (Sqlite.create_tables Sqlite.given_tables) Sqlite.given_tables
      (with_article [mkArticle "10.26434/chemrxiv-2024-jjdsq" "LANaPDB" 2024 None]
         empty_db).
Proof.
  apply schema_initialisation_idempotent.
  decide_now.
Defined.

(** ** Association rows *)

(** C5 (as the code has it).  Once the id of the keyword has been looked up,
    the raw-SQL notebook inserts the association row that joins the paper to
    that id when the pair is not stored yet; when the pair is stored already
    the plain [INSERT] is not ignored: it raises [IntegrityError], which
    reaches the caller, and the connection is left as it was. *)
Theorem association_insert_checks_composite_key (c : connection)
    (paper_id keyword : string) (r : keyword_row) (rows : list keyword_row)
    (Hfound : filter (λ r, k_keyword r = keyword) (keywords (view c)) = r :: rows)
    (Htable : is_Some (t_articlekeyword (view c))) :
  let l := mkArticleKeyword paper_id (k_id r) in
  (l ∉ article_keywords (view c) →
     ∃ c', run (Sqlite.associate paper_id keyword) c = (Ok tt, c')
           ∧ article_keywords (view c') = article_keywords (view c) ++ [l]
           ∧ disk c' = disk c)
  ∧ (l ∈ article_keywords (view c) →
     run (Sqlite.associate paper_id keyword) c = (Err IntegrityError, c)).
Proof.
  intros l.
  assert (run (execute (SelectKeyword keyword)) c = (Ok (r :: rows), c)) as Hsel.
  { rewrite run_execute. simpl. unfold select_keyword.
    unfold keywords in Hfound. destruct (t_keyword (view c)) as [ks|]; simpl in *.
    - by rewrite Hfound.
    - by rewrite filter_nil in Hfound. }
  unfold Sqlite.associate. rewrite run_bind, Hsel. simpl. split.
  - intros Hl. unfold write, unit_write.
    assert (insert_articlekeyword paper_id (k_id r) (view c)
            = Ok (with_articlekeyword (article_keywords (view c) ++ [l]) (view c)))
      as -> by (by apply insert_articlekeyword_Ok).
    eexists. split; [done|]. by split.
  - intros Hl. unfold write, unit_write.
    destruct (insert_articlekeyword paper_id (k_id r) (view c)) as [db'|e] eqn:E.
    + by apply insert_articlekeyword_Ok in E as (_ & Hn & _).
    + unfold insert_articlekeyword in E. destruct Htable as [ls Hls].
      rewrite Hls in E. by case_bool_decide; simplify_eq.
Qed.

Lemma association_insert_checks_composite_key_witness :
  let c := (run (Sqlite.notebook 2024 one_paper) (connect empty_db)).2 in
  let l := mkArticleKeyword "10.26434/chemrxiv-2024-jjdsq" 3 in
  (l ∉ article_keywords (view c) →
     ∃ c', run (Sqlite.associate "10.26434/chemrxiv-2024-jjdsq" "Database") c = (Ok tt, c')
           ∧ article_keywords (view c') = article_keywords (view c) ++ [l]
           ∧ disk c' = disk c)
  ∧ (l ∈ article_keywords (view c) →
     run (Sqlite.associate "10.26434/chemrxiv-2024-jjdsq" "Database") c
     = (Err IntegrityError, c)).
Proof.
  intros c l.
  apply (association_insert_checks_composite_key c "10.26434/chemrxiv-2024-jjdsq"
           "Database" (mkKeywordRow 3 "Database") []).
  - vm_compute. reflexivity.
  - vm_compute. eauto.
Defined.

(** The claim as the specification has it fails: running the cell that
    associates the keywords a second time is a duplicate attempt for every
    pair, and it ends with [IntegrityError] instead of passing silently. *)
Lemma duplicate_association_raises :
  (run (Sqlite.notebook 2024 one_paper;; Sqlite.associate_cell one_paper)
     (connect empty_db)).1
  = Err IntegrityError.
Proof. vm_compute. reflexivity. Qed.

(** ** The keyword query *)

Section Query.



Lemma keyword_matches_spec (other : string) (db : database) (a : Article) :
  keyword_matches other db a = true
  ↔ ∃ k, linked db a k ∧ contains (k_keyword k) other = true.
Proof.
  unfold keyword_matches, linked. rewrite existsb_exists. split.
  - intros (l & Hl & (k & Hk & H)%existsb_exists).
    apply andb_true_iff in H as [H Hc]. apply andb_true_iff in H as [Hd Hi].
    apply bool_decide_eq_true in Hd, Hi.
    exists k. apply list_elem_of_In in Hl. apply list_elem_of_In in Hk.
    split; [split; [done|]|done].
    destruct l as [d i]. simpl in *. by subst.
  - intros (k & [Hk Hl] & Hc). exists (mkArticleKeyword (doi a) (k_id k)).
    rewrite <- list_elem_of_In. split; [done|].
    apply existsb_exists. exists k. rewrite <- list_elem_of_In. split; [done|].
    simpl. by rewrite !bool_decide_eq_true_2, Hc.
Qed.


End Query.



Example query_drug :
  (run (Relationships.notebook [tagged_drug; tagged_database] "drug")
     (connect empty_db)).1
  = Ok [Relationships.new_article tagged_drug].
Proof. vm_compute. reflexivity. Qed.


(** ** Rows are never lost without ROLLBACK *)

Section Extends.

Lemma extends_refl (db : database) : extends db db.
Proof. by repeat split. Qed.

Lemma extends_trans (db1 db2 db3 : database) :
  extends db1 db2 → extends db2 db3 → extends db1 db3.
Proof.
  intros (? & ? & ?) (? & ? & ?). repeat split; by etrans.
Qed.

Lemma extends_writes {B} (q : stmt B) (db db' : database) :
  writes q db db' → extends db db'.
Proof.
  unfold extends. destruct q; simpl; try done.
  - intros (_ & _ & -> & _ & -> & -> & _)%create_table_Ok. done.
  - intros (_ & -> & _ & -> & -> & _)%create_table_if_not_exists_Ok. done.
  - intros (_ & Hn & ->)%insert_article_Ok. split; [|done].
    change (articles db ⊆ articles db ++ [a]). intros x Hx. apply elem_of_app. by left.
  - intros [i (_ & Hn & -> & ->)%insert_keyword_Ok]. split; [done|]. split; [|done].
    intros x Hx.
    change (x ∈ keywords db ++ [mkKeywordRow (next_rowid (keyword_ids db)) kw]).
    apply elem_of_app. by left.
  - intros (_ & Hn & ->)%insert_articlekeyword_Ok. split; [done|]. split; [done|].
    intros x Hx.
    change (x ∈ article_keywords db ++ [mkArticleKeyword d kid]).
    apply elem_of_app. by left.
Qed.

Lemma extends_step {B} (q : stmt B) (c : connection) :
  no_rollback _ q c → extends (view c) (view (exec q c).2).
Proof.
  intros Hq.
  destruct (exec_cases q c) as [->|[(db' & H & ->)|[[_ ->]|[? ->]]]];
    [apply extends_refl| |apply extends_refl|done].
  by apply extends_writes in H.
Qed.

Lemma extends_run {A} (p : prog A) (c : connection) :
  guarded no_rollback p c → extends (view c) (view (run p c).2).
Proof.
  apply (run_invariant (λ c', extends (view c) (view c')) no_rollback);
    [|apply extends_refl].
  intros B q c' Hc Hq. eapply extends_trans; [done|by apply extends_step].
Qed.

Lemma always_no_rollback_add_paper (p : item) :
  always no_rollback (Relationships.add_paper p).
Proof.
  unfold Relationships.add_paper.
  apply always_bind.
  { apply always_mapM. intros kw. unfold Relationships.keyword_object.
    apply always_bind; [by apply always_execute|]. intros rows.
    apply always_bind.
    - destruct rows as [|r [|r' rows]]; by intros c.
    - intros [r|]; apply always_ret. }
  intros objs. unfold Relationships.session_commit.
  apply always_bind.
  { apply always_mapM. intros o. unfold Relationships.keyword_id_of.
    destruct (Keyword.id o); [apply always_ret|by apply always_execute]. }
  intros ids. apply always_bind; [by apply always_execute|]. intros _.
  apply always_bind; [|intros _; by apply always_execute].
  apply always_for_each. intros i. by apply always_execute.
Qed.

(** A paper that notebook 4 adds without an exception has its article row
    on disk. *)
Lemma add_paper_stores_article (p : item) (c c' : connection) :
  run (Relationships.add_paper p) c = (Ok tt, c') →
  Relationships.new_article p ∈ articles (disk c').
Proof.
  revert c'.
  cut (triple no_rollback c (Relationships.add_paper p)
         (λ _ c', Relationships.new_article p ∈ articles (disk c'))).
  { intros [_ H] c' Hr. by apply (H tt). }
  unfold Relationships.add_paper.
  eapply triple_bind with (Q' := λ _ _, True).
  { split; [|done].
    pose proof (always_no_rollback_add_paper p c) as H.
    unfold Relationships.add_paper in H. by apply guarded_bind in H as [H _]. }
  intros objs c1 _. unfold Relationships.session_commit.
  eapply triple_bind with (Q' := λ _ _, True).
  { split; [|done]. apply always_mapM. intros o. unfold Relationships.keyword_id_of.
    destruct (Keyword.id o); [apply always_ret|by apply always_execute]. }
  intros ids c2 _.
  eapply triple_bind with
    (Q' := λ _ c3, Relationships.new_article p ∈ articles (view c3)).
  { apply triple_execute; [done|]. intros [] c3 H.
    simpl in H. unfold write, unit_write in H.
    destruct (insert_article _ (view c2)) as [db'|] eqn:E; [|done].
    injection H as <-. apply insert_article_Ok in E as (_ & _ & ->).
    unfold view. simpl.
    change (Relationships.new_article p
              ∈ articles (view c2) ++ [Relationships.new_article p]).
    apply elem_of_app. right. by left. }
  intros [] c3 Ha.
  eapply triple_bind with
    (Q' := λ _ c4, Relationships.new_article p ∈ articles (view c4)).
  { split.
    - apply always_for_each. intros i. by apply always_execute.
    - intros [] c4 Hr.
      assert (guarded no_rollback
                (for_each ids (λ i, execute
                   (InsertArticleKeyword (doi (Relationships.new_article p)) i))) c3)
        as Hg by (apply always_for_each; intros i; by apply always_execute).
      apply extends_run in Hg as [Hg _]. rewrite Hr in Hg. by apply Hg. }
  intros [] c4 Ha4. apply triple_execute; [done|].
  intros [] c5 [= <-]. done.
Qed.

End Extends.

(** The engine itself accepts an association row that points nowhere. *)
Example dangling_row_accepted :
  insert_articlekeyword "10.26434/no-such-article" 7 (with_articlekeyword [] empty_db)
  = Ok (with_articlekeyword [mkArticleKeyword "10.26434/no-such-article" 7] empty_db).
Proof. reflexivity. Qed.

(** C8. At every moment of a run of any of the three notebooks, on any
    input, and both in what is on disk and in what the open transaction
    sees: every row of [articlekeyword] references an [article] row and a
    [keyword] row that are there, every row of [articleauthor] references an
    [article] row and an [author] row that are there, and no association
    table holds the same pair twice. *)
Theorem association_rows_reference_existing_rows (r : notebook_run) (n : nat) :
  both (λ db, referential_integrity db
              ∧ NoDup (article_keywords db)
              ∧ NoDup (article_authors db)) (moment r n).
Proof.
  destruct (moment_store_ok r n) as [[(_ & _ & _ & H1 & H2) H3] [(_ & _ & _ & H4 & H5) H6]].
  by split.
Qed.

(** C9. Every article row that the batch loader of notebook 4, or the
    single-paper cell of notebook 3, stores carries the publication year
    2024: this holds of every article row at every moment of a run, and the
    row that a successfully added record leaves on disk is the one built
    from its doi, title and abstract with the constant 2024, whatever date
    the record carries. *)
Theorem stored_publication_year_is_2024 (data : list item) (other : string)
    (paper_data p : item) (date : string) (n : nat) (c c' : connection)
    (Hadded : run (Relationships.add_paper p) c = (Ok tt, c')) :
  both all_2024 (moment (RunRelationships data other) n)
  ∧ both all_2024 (moment (RunSqlModel paper_data) n)
  ∧ Relationships.new_article p ∈ articles (disk c')
  ∧ publication_year (Relationships.new_article p) = 2024
  ∧ Relationships.new_article
      (mkItem (item_doi p) (item_title p) (item_abstract p) (item_keywords p)
         (item_authors p) date)
    = Relationships.new_article p.
Proof.
  split; [|split; [|split; [|done]]].
  - pose proof (relationships_keeps_store_ok data other (connect empty_db) n)
      as [(_ & _ & H1) (_ & _ & H2)]; [split; apply orm_store_ok_empty|]. by split.
  - pose proof (sqlmodel_keeps_store_ok paper_data (connect empty_db) n)
      as [(_ & _ & H1) (_ & _ & H2)]; [split; apply orm_store_ok_empty|]. by split.
  - by eapply add_paper_stores_article.
Qed.

Lemma stored_publication_year_is_2024_witness :
  let c := (run (create_all Relationships.metadata) (connect empty_db)).2 in
  let c' := (run (Relationships.add_paper one_paper) c).2 in
  both all_2024 (moment (RunRelationships [one_paper] "drug") 30)
  ∧ both all_2024 (moment (RunSqlModel one_paper) 30)
  ∧ Relationships.new_article one_paper ∈ articles (disk c')
  ∧ publication_year (Relationships.new_article one_paper) = 2024
  ∧ Relationships.new_article
      (mkItem (item_doi one_paper) (item_title one_paper) (item_abstract one_paper)
         (item_keywords one_paper) (item_authors one_paper) "1999-01-01")
    = Relationships.new_article one_paper.
Proof.
  intros c c'.
  apply (stored_publication_year_is_2024 [one_paper] "drug" one_paper one_paper
           "1999-01-01" 30 c c').
  vm_compute. reflexivity.
Defined.

(** ** Stopping notebook 4 in the middle *)

Section Atomic.

Lemma quiet_crash {A} (p : prog A) (c : connection) (n : nat) :
  quiet p → disk (crash_after n p c) = disk c.
Proof.
  intros Hp. apply (crash_invariant (λ c', disk c' = disk c) no_commit); [|done|apply Hp].
  intros B q c' Hc Hq. by rewrite disk_step.
Qed.

Lemma quiet_run {A} (p : prog A) (c : connection) :
  quiet p → disk (run p c).2 = disk c.
Proof.
  intros Hp. apply (run_invariant (λ c', disk c' = disk c) no_commit); [|done|apply Hp].
  intros B q c' Hc Hq. by rewrite disk_step.
Qed.

Lemma atomic_commit : atomic (execute Commit).
Proof.
  intros c [|n]; [by left|]. right. split; [by destruct n|by exists tt].
Qed.

Lemma atomic_bind {A B} (p : prog A) (f : A → prog B) :
  quiet p → (∀ a, atomic (f a)) → atomic (p ≫= f).
Proof.
  intros Hp Hf c n. rewrite crash_after_bind, run_bind.
  case_decide as Hn; [left; by apply quiet_crash|].
  pose proof (quiet_run p c Hp) as Hd.
  destruct (run p c) as [[a|e] c']; simpl in Hd; [|by left].
  destruct (Hf a c' (n - length (trace p c))%nat) as [H|H]; [left; congruence|by right].
Qed.

Lemma quiet_add_paper_body (paper_data : item) :
  quiet (mapM Relationships.keyword_object (item_keywords paper_data)).
Proof.
  apply always_mapM. intros kw. unfold Relationships.keyword_object.
  apply always_bind; [by apply always_execute|]. intros rows.
  apply always_bind.
  - destruct rows as [|r [|r' rows]]; by intros c.
  - intros [r|]; apply always_ret.
Qed.

(** A paper reaches the disk whole or not at all. *)
Lemma atomic_add_paper (paper_data : item) : atomic (Relationships.add_paper paper_data).
Proof.
  unfold Relationships.add_paper.
  apply atomic_bind; [apply quiet_add_paper_body|]. intros objs.
  unfold Relationships.session_commit. apply atomic_bind.
  { apply always_mapM. intros o. unfold Relationships.keyword_id_of.
    destruct (Keyword.id o); [apply always_ret|by apply always_execute]. }
  intros ids. apply atomic_bind; [by apply always_execute|]. intros _.
  apply atomic_bind; [|intros _; apply atomic_commit].
  apply always_for_each. intros i. by apply always_execute.
Qed.

Lemma atomic_failure {A} (p : prog A) (c : connection) (e : exn) :
  atomic p → (run p c).1 = Err e → disk (run p c).2 = disk c.
Proof.
  intros Hp He.
  destruct (Hp c (length (trace p c))) as [H|[_ [a Ha]]]; [|congruence].
  by rewrite crash_after_end in H.
Qed.

Lemma papers_crash (data : list item) (c : connection) (n : nat) :
  ∃ k, (k ≤ length data)%nat
       ∧ disk (crash_after n (for_each data Relationships.add_paper) c)
         = disk (run (for_each (take k data) Relationships.add_paper) c).2.
Proof.
  revert c n. induction data as [|p data IH]; intros c n.
  { exists 0%nat. split; [done|]. by destruct n. }
  rewrite for_each_cons, crash_after_bind.
  case_decide as Hn.
  - destruct (atomic_add_paper p c n) as [H|[H [[] Ha]]].
    + exists 0%nat. split; [simpl; lia|]. done.
    + exists 1%nat. split; [simpl; lia|].
      change (take 1 (p :: data)) with (p :: take 0 data). rewrite take_0.
      rewrite for_each_cons, run_bind, H.
      destruct (run (Relationships.add_paper p) c) as [[[]|e] c']; simpl in *; done.
  - destruct (run (Relationships.add_paper p) c) as [[[]|e] c'] eqn:Hr.
    + destruct (IH c' (n - length (trace (Relationships.add_paper p) c))%nat)
        as (k & Hk & ->).
      exists (S k). split; [simpl; lia|].
      change (take (S k) (p :: data)) with (p :: take k data).
      by rewrite for_each_cons, run_bind, Hr.
    + exists 0%nat. split; [simpl; lia|].
      pose proof (atomic_failure _ c e (atomic_add_paper p)) as H.
      rewrite Hr in H. by apply H.
Qed.

Lemma crash_after_then {A B} (n : nat) (h : prog A) (q : prog B) (c : connection) :
  (∀ m c', crash_after m q c' = c') →
  crash_after n (h ≫= λ _, q) c = crash_after n h c.
Proof.
  intros Hq. rewrite crash_after_bind. case_decide as Hn; [done|].
  rewrite crash_after_end by lia.
  destruct (run h c) as [[a|e] c']; [apply Hq|done].
Qed.

Lemma crash_after_finally {A} (n : nat) (p : prog A) (h : prog unit) (c : connection) :
  crash_after n (finally p h) c
  = if decide (n ≤ length (trace p c))%nat then crash_after n p c
    else crash_after (n - length (trace p c)) h (run p c).2.
Proof.
  revert n c. induction p as [a|e|X q k IH]; intros n c.
  - simpl finally. rewrite crash_after_then by (by intros []).
    simpl. case_decide as Hn; [|by rewrite Nat.sub_0_r].
    assert (n = 0%nat) as -> by lia. by destruct h.
  - simpl finally. rewrite crash_after_then by (by intros []).
    simpl. case_decide as Hn; [|by rewrite Nat.sub_0_r].
    assert (n = 0%nat) as -> by lia. by destruct h.
  - destruct n as [|n]; [by rewrite decide_True by lia|].
    simpl. destruct (exec q c) as [r c']. rewrite IH. simpl.
    destruct (decide (n ≤ length (trace (k r) c'))%nat);
      [by rewrite decide_True by lia|by rewrite decide_False by lia].
Qed.

(** What is on disk when the cell that loads the papers is stopped. *)
Lemma load_crash (data : list item) (c : connection) (n : nat) :
  ∃ k, (k ≤ length data)%nat
       ∧ disk (crash_after n (Relationships.load data) c)
         = disk (run (for_each (take k data) Relationships.add_paper) c).2.
Proof.
  unfold Relationships.load, with_session. rewrite crash_after_finally.
  case_decide as Hn; [apply papers_crash|].
  destruct (papers_crash data c (length (trace (for_each data Relationships.add_paper) c)))
    as (k & Hk & H).
  exists k. split; [done|]. rewrite <- H.
  rewrite (crash_after_end _ (for_each data Relationships.add_paper) c) by lia.
  set (c' := (run (for_each data Relationships.add_paper) c).2).
  destruct (n - length (trace (for_each data Relationships.add_paper) c))%nat
    as [|m]; [done|]. by destruct m.
Qed.

Lemma always_load (data : list item) : always orm_guard (Relationships.load data).
Proof.
  apply always_finally; [|by apply always_execute].
  apply always_for_each, always_add_paper.
Qed.

Lemma load_keeps_store_ok (data : list item) (c : connection) (n : nat) :
  both store_ok c → both store_ok (crash_after n (Relationships.load data) c).
Proof.
  intros Hc. apply (crash_invariant (both store_ok) links_to_seen); [|done|].
  - intros B q c'. apply store_ok_step.
  - apply (guarded_impl orm_guard); [by intros B q c' [? _]|apply always_load].
Qed.

End Atomic.

(** C4 (as the code has it).  When the cell that loads the papers is stopped
    after any number of statements, by a crash or by an exception, the disk
    never holds an association row whose article or keyword row is not on
    disk too.  The loader does not commit a row before it inserts the
    association rows that depend on it: it inserts the new keyword rows and
    the article row first and the association rows after them, all in one
    transaction, so that every association row the transaction sees has its
    rows in the same transaction, and one COMMIT at the end of the paper
    brings them to disk together: the disk always holds the papers of a
    prefix of the input, each whole. *)
Theorem stopped_load_leaves_whole_papers (db : database) (data : list item) (n : nat)
    (Hok : store_ok db) :
  let c := crash_after n (Relationships.load data) (connect db) in
  referential_integrity (disk c)
  ∧ referential_integrity (view c)
  ∧ ∃ k, (k ≤ length data)%nat
         ∧ disk c = disk (run (for_each (take k data) Relationships.add_paper)
                            (connect db)).2.
Proof.
  intros c.
  destruct (load_keeps_store_ok data (connect db) n) as [[_ H1] [_ H2]]; [by split|].
  split; [done|]. split; [done|]. apply load_crash.
Qed.

Lemma stopped_load_leaves_whole_papers_witness :
  let db := (run (create_all Relationships.metadata) (connect empty_db)).2.(disk) in
  let c := crash_after 5 (Relationships.load [tagged_drug; tagged_database]) (connect db) in
  referential_integrity (disk c)
  ∧ referential_integrity (view c)
  ∧ ∃ k, (k ≤ length [tagged_drug; tagged_database])%nat
         ∧ disk c = disk (run (for_each (take k [tagged_drug; tagged_database])
                                 Relationships.add_paper) (connect db)).2.
Proof.
  intros db.
  apply (stopped_load_leaves_whole_papers db [tagged_drug; tagged_database] 5).
  store_ok_now.
Defined.

(** The claim as the specification has it fails: after fifteen statements of
    notebook 4 on one paper with one keyword, the association row of the
    paper has been inserted while neither its article row nor its keyword
    row has been committed. *)
Lemma association_row_inserted_before_commit :
  let c := moment (RunRelationships [tagged_database] "database") 15 in
  article_keywords (view c) = [mkArticleKeyword "10.26434/example-2" 1]
  ∧ articles (disk c) = []
  ∧ keywords (disk c) = []
  ∧ articles (view c) = [Relationships.new_article tagged_database]
  ∧ keywords (view c) = [mkKeywordRow 1 "database"].
Proof. vm_compute. done. Qed.

(** ** Adding a paper in notebook 4 *)

Section AddPaper.

Lemma NoDup_fmap_eq {X Y} (f : X → Y) (l : list X) (x y : X) :
  NoDup (f <$> l) → x ∈ l → y ∈ l → f x = f y → x = y.
Proof.
  induction l as [|z l IH]; [by intros _ ?%elem_of_nil|].
  rewrite fmap_cons. intros [Hz Hl]%NoDup_cons Hx Hy Hf.
  apply elem_of_cons in Hx as [->|Hx], Hy as [->|Hy]; [done| | |by apply IH].
  - destruct Hz. rewrite Hf. by apply list_elem_of_fmap_2.
  - destruct Hz. rewrite <- Hf. by apply list_elem_of_fmap_2.
Qed.

(** With a unique index a lookup by text finds no row or one. *)
Lemma filter_unique {X Y} `{EqDecision Y} (f : X → Y) (l : list X) (t : Y) :
  NoDup (f <$> l) →
  filter (λ r, f r = t) l = [] ∧ (t ∉ f <$> l)
  ∨ ∃ r, filter (λ r, f r = t) l = [r] ∧ r ∈ l ∧ f r = t.
Proof.
  induction l as [|z l IH]; [left; split; [done|apply not_elem_of_nil]|].
  rewrite fmap_cons. intros [Hz Hl]%NoDup_cons. rewrite filter_cons.
  destruct (IH Hl) as [[E Hn]|(r & E & Hr & Hf)]; case_decide as Hzt.
  - right. exists z. rewrite E. split; [done|]. split; [by left|done].
  - left. split; [done|]. by intros [?|?]%elem_of_cons.
  - destruct Hz. rewrite Hzt, <- Hf. by apply list_elem_of_fmap_2.
  - right. exists r. split; [done|]. split; [by right|done].
Qed.









End AddPaper.

(** ** One row per keyword *)

Section Keywords.





(** The row of a text is the only row of that text. *)
Lemma filter_the_row (db : database) (r : keyword_row) :
  NoDup (keyword_texts db) → r ∈ keywords db →
  filter (λ r', k_keyword r' = k_keyword r) (keywords db) = [r].
Proof.
  intros Hnd Hr.
  destruct (filter_unique k_keyword (keywords db) (k_keyword r) Hnd)
    as [[_ Hn]|(r' & -> & Hr' & Hf)].
  - destruct Hn. by apply list_elem_of_fmap_2.
  - by rewrite (NoDup_fmap_eq k_keyword _ r' r Hnd Hr' Hr Hf).
Qed.

End Keywords.



Section TwoCasings.


End TwoCasings.





(** Within one paper the lookup of notebook 4 does not see the keyword
    objects it has just made: a paper that names a keyword twice, here in
    two casings, is not stored at all, the load ends with
    [IntegrityError]. *)
Example same_paper_two_casings :
  run (create_all Relationships.metadata;; Relationships.load [two_casings])
    (connect empty_db)
  = (Err IntegrityError,
     connect (disk (run (create_all Relationships.metadata) (connect empty_db)).2)).
Proof. by vm_compute. Qed.

(** * Further properties of the notebooks *)

(** ** The schema, exactly *)

Section SchemaExact.

Lemma table_ext {X} (o o' : option (list X)) :
  default [] o' = default [] o →
  bool_decide (is_Some o') = bool_decide (is_Some o) → o' = o.
Proof.
  destruct o as [l|], o' as [l'|]; simpl; intros Hrows Hthere;
    first [by subst|discriminate Hthere].
Qed.

(** An image is its tables and their rows. *)
Lemma database_ext (db db' : database) :
  same_rows db db' → (∀ t, table_exists t db' = table_exists t db) → db' = db.
Proof.
  intros (Ha & Hu & Hk & Hl & Hv) Ht.
  pose proof (Ht tbl_article) as H1. pose proof (Ht tbl_author) as H2.
  pose proof (Ht tbl_keyword) as H3. pose proof (Ht tbl_articlekeyword) as H4.
  pose proof (Ht tbl_articleauthor) as H5.
  destruct db as [a u k l v], db' as [a' u' k' l' v'].
  unfold articles, authors, keywords, article_keywords, article_authors in *.
  simpl in *.
  f_equal; by apply table_ext.
Qed.

(** [create_all] creates the tables of the metadata that are missing, and
    nothing else. *)
Lemma run_create_all_exact (md : list table) (db : database) :
  NoDup md →
  ∃ db',
    run (create_all md) (connect db) = (Ok tt, connect db')
    ∧ same_rows db db'
    ∧ ∀ t, table_exists t db' = table_exists t db || bool_decide (t ∈ md).
Proof.
  intros Hnd. unfold create_all.
  pose (c := connect db).
  destruct (run_create_tables
              (filter (λ t, table_exists t (view c) = false) md) c)
    as (c' & Hr & Hd & Hs & He).
  { by apply NoDup_filter. }
  { by intros t [? _]%list_elem_of_filter. }
  exists (view c'). split; [|split; [done|]].
  - rewrite run_bind, run_missing_tables. fold c. rewrite run_bind, Hr.
    by run_statement.
  - intros t. rewrite He. change (view c) with db.
    destruct (table_exists t db) eqn:E; [done|]. simpl.
    apply bool_decide_ext. rewrite list_elem_of_filter. by split; [intros [_ ?]|].
Qed.

Lemma create_table_if_not_exists_exact (t t' : table) (db db' : database) :
  create_table_if_not_exists t db = Ok db' →
  table_exists t' db' = table_exists t' db || bool_decide (t' = t).
Proof.
  unfold create_table_if_not_exists. intros H.
  destruct (decide (t' = t)) as [->|Hne].
  - rewrite bool_decide_eq_true_2, orb_true_r by done.
    destruct (table_exists t db) eqn:E; [by injection H as <-|].
    by apply create_table_Ok in H as (_ & ? & _).
  - rewrite bool_decide_eq_false_2, orb_false_r by done.
    destruct (table_exists t db) eqn:E; [by injection H as <-|].
    by apply (create_table_other t t' db db').
Qed.

(** The [CREATE TABLE IF NOT EXISTS] cells create the tables they name that
    are missing, and nothing else. *)
Lemma run_create_tables_sqlite_exact (l : list table) (db : database) :
  ∃ db',
    run (Sqlite.create_tables l) (connect db) = (Ok tt, connect db')
    ∧ same_rows db db'
    ∧ ∀ t, table_exists t db' = table_exists t db || bool_decide (t ∈ l).
Proof.
  revert db. induction l as [|t l IH]; intros db.
  - exists db. split; [done|]. split; [apply same_rows_refl|]. intros t.
    rewrite bool_decide_eq_false_2 by apply not_elem_of_nil. by rewrite orb_false_r.
  - destruct (create_table_if_not_exists_total t db) as [db1 H1].
    destruct (IH db1) as (db' & Hr & Hs & He).
    exists db'. unfold Sqlite.create_tables, connect in *.
    rewrite for_each_cons, run_bind, run_bind. run_statement. simpl.
    unfold write, unit_write, view. simpl. rewrite H1. simpl.
    split; [exact Hr|]. split.
    + eapply same_rows_trans; [|done].
      apply create_table_if_not_exists_Ok in H1 as (_ & ? & ? & ? & ? & ? & _).
      by repeat split.
    + intros t'. rewrite He, (create_table_if_not_exists_exact t t' db db1 H1).
      rewrite <- orb_assoc. f_equal.
      destruct (decide (t' = t)) as [->|Hne].
      * rewrite (bool_decide_eq_true_2 (t = t)) by done.
        rewrite (bool_decide_eq_true_2 (t ∈ t :: l)) by (by left). done.
      * rewrite (bool_decide_eq_false_2 (t' = t)) by done. simpl.
        apply bool_decide_ext. rewrite elem_of_cons. by split; [right|intros [?|?]].
Qed.

End SchemaExact.

(** X1. Removing the database file and creating the schema anew gives a
    store where each of the five tables is there and holds no row, whatever
    the directory held before.  This holds for the [create_all] of notebook
    4, for the three [create_all] calls of notebook 3 and for the
    [CREATE TABLE IF NOT EXISTS] cells of the raw-SQL notebook. *)
Theorem fresh_store_has_empty_tables (fs : filesystem) :
  (∃ fs' db,
     Relationships.remove_db fs = inr fs'
     ∧ run (create_all Relationships.metadata)
           (open_file Relationships.db_file fs') = (Ok tt, connect db)
     ∧ ∀ t, row_count t db = Some 0%nat)
  ∧ (∃ fs' db,
       SqlModel.remove_db fs = inr fs'
       ∧ run (create_all [tbl_article];;
              create_all [tbl_article; tbl_author; tbl_keyword];;
              create_all [tbl_article; tbl_author; tbl_keyword; tbl_articlekeyword;
                          tbl_articleauthor])
             (open_file SqlModel.db_file fs') = (Ok tt, connect db)
       ∧ ∀ t, row_count t db = Some 0%nat)
  ∧ (∃ fs' db,
       Sqlite.remove_db fs = inr fs'
       ∧ run (Sqlite.create_tables Sqlite.given_tables;;
              Sqlite.create_tables Sqlite.exercise_tables)
             (open_file Sqlite.db_file fs') = (Ok tt, connect db)
       ∧ ∀ t, row_count t db = Some 0%nat).
Proof.
  split; [|split].
  - destruct (remove_db_file_removes Relationships.db_file fs) as (fs' & Hrm & _).
    exists fs'. eexists. split; [exact Hrm|].
    rewrite (open_after_remove _ _ _ Hrm). split; [vm_compute; reflexivity|].
    by intros [].
  - destruct (remove_db_file_removes SqlModel.db_file fs) as (fs' & Hrm & _).
    exists fs'. eexists. split; [exact Hrm|].
    rewrite (open_after_remove _ _ _ Hrm). split; [vm_compute; reflexivity|].
    by intros [].
  - destruct (remove_db_file_removes Sqlite.db_file fs) as (fs' & Hrm & _).
    exists fs'. eexists. split; [exact Hrm|].
    rewrite (open_after_remove _ _ _ Hrm). split; [vm_compute; reflexivity|].
    by intros [].
Qed.

(** X2. Creating the schema in stages, as notebook 3 does when it calls
    [create_all] again after each group of new classes, gives the same
    store as one [create_all] with the last, largest metadata. *)
Theorem create_all_in_stages (md1 md2 : list table) (db : database)
    (Hmd1 : NoDup md1) (Hmd2 : NoDup md2) (Hsub : md1 ⊆ md2) :
  run (create_all md1;; create_all md2) (connect db)
  = run (create_all md2) (connect db).
Proof.
  destruct (run_create_all_exact md1 db Hmd1) as (db1 & Hr1 & Hs1 & He1).
  destruct (run_create_all_exact md2 db1 Hmd2) as (db12 & Hr12 & Hs12 & He12).
  destruct (run_create_all_exact md2 db Hmd2) as (db2 & Hr2 & Hs2 & He2).
  rewrite run_bind, Hr1, Hr12, Hr2. do 2 f_equal.
  apply database_ext.
  - destruct Hs1 as (? & ? & ? & ? & ?), Hs12 as (? & ? & ? & ? & ?),
      Hs2 as (? & ? & ? & ? & ?).
    repeat split; congruence.
  - intros t. rewrite He12, He1, He2, <- orb_assoc. f_equal.
    destruct (decide (t ∈ md1)) as [Hin|Hout].
    + rewrite (bool_decide_eq_true_2 (t ∈ md1)) by done.
      by rewrite (bool_decide_eq_true_2 (t ∈ md2)) by (by apply Hsub).
    + by rewrite (bool_decide_eq_false_2 (t ∈ md1)).
Qed.

Lemma create_all_in_stages_witness :
  run (create_all [tbl_article];;
       create_all [tbl_article; tbl_author; tbl_keyword]) (connect empty_db)
  = run (create_all [tbl_article; tbl_author; tbl_keyword]) (connect empty_db).
Proof.
  apply create_all_in_stages.
  - decide_now.
  - decide_now.
  - intros t Ht. apply list_elem_of_singleton in Ht as ->. by left.
Defined.

(** X3. Initialising a schema creates exactly the tables it names that
    are missing, each without a row, and changes nothing else: no other
    table appears, no row is touched.  On a schema that names each table
    once, [create_all] and the [CREATE TABLE IF NOT EXISTS ...; commit]
    cells of the raw-SQL notebook leave the same store. *)
Theorem initialisation_creates_exactly_the_missing_tables (tables : list table)
    (db : database) (Htables : NoDup tables) :
  ∃ db',
    run (create_all tables) (connect db) = (Ok tt, connect db')
    ∧ run (Sqlite.create_tables tables) (connect db) = (Ok tt, connect db')
    ∧ same_rows db db'
    ∧ (∀ t, table_exists t db' = table_exists t db || bool_decide (t ∈ tables))
    ∧ (∀ t, table_exists t db = false → t ∈ tables → row_count t db' = Some 0%nat).
Proof.
  destruct (run_create_tables_sqlite_exact tables db) as (db1 & Hr1 & Hs1 & He1).
  destruct (run_create_all_exact tables db Htables) as (db2 & Hr2 & Hs2 & He2).
  assert (db1 = db2) as ->.
  { apply database_ext.
    - destruct Hs1 as (? & ? & ? & ? & ?), Hs2 as (? & ? & ? & ? & ?).
      repeat split; congruence.
    - intros t. by rewrite He1, He2. }
  exists db2. split; [done|]. split; [done|]. split; [done|]. split; [done|].
  intros t Hmissing Hin.
  assert (table_exists t db2 = true) as Hthere.
  { rewrite He2, Hmissing. simpl. by apply bool_decide_eq_true. }
  clear -Hs2 Hmissing Hthere.
  unfold same_rows, articles, authors, keywords, article_keywords, article_authors in Hs2.
  destruct Hs2 as (H1 & H2 & H3 & H4 & H5).
  destruct db as [[a|] [u|] [k|] [ak|] [aa|]], db2 as [[a'|] [u'|] [k'|] [ak'|] [aa'|]];
    destruct t; simpl in *; try discriminate Hmissing; try discriminate Hthere;
    by subst.
Qed.

Lemma initialisation_creates_exactly_the_missing_tables_witness :
  ∃ db',
    run (create_all Relationships.metadata)
        (connect (with_keyword [mkKeywordRow 1 "database"] empty_db))
    = (Ok tt, connect db')
    ∧ run (Sqlite.create_tables Relationships.metadata)
          (connect (with_keyword [mkKeywordRow 1 "database"] empty_db))
      = (Ok tt, connect db')
    ∧ same_rows (with_keyword [mkKeywordRow 1 "database"] empty_db) db'
    ∧ (∀ t, table_exists t db'
            = table_exists t (with_keyword [mkKeywordRow 1 "database"] empty_db)
              || bool_decide (t ∈ Relationships.metadata))
    ∧ (∀ t, table_exists t (with_keyword [mkKeywordRow 1 "database"] empty_db) = false →
            t ∈ Relationships.metadata → row_count t db' = Some 0%nat).
Proof. apply initialisation_creates_exactly_the_missing_tables. decide_now. Defined.

(** ** The keyword query, for every argument *)

Section QueryCase.

Lemma lower_ascii_wildcard (p : ascii) :
  Ascii.eqb (lower_ascii p) "%" = Ascii.eqb p "%"
  ∧ Ascii.eqb (lower_ascii p) "_" = Ascii.eqb p "_".
Proof. destruct p as [[] [] [] [] [] [] [] []]; split; vm_compute; reflexivity. Qed.

(** [LIKE] does not see the case of ASCII letters, in the pattern or in the
    text. *)
Lemma like_lower (p s : string) : like (lower p) (lower s) = like p s.
Proof.
  revert s. induction p as [|a p IH]; intros s; [by destruct s|].
  simpl. destruct (lower_ascii_wildcard a) as [-> ->].
  destruct (Ascii.eqb a "%").
  { induction s as [|b s IHs]; simpl.
    - f_equal. apply (IH "").
    - f_equal; [apply (IH (String b s))|apply IHs]. }
  destruct (Ascii.eqb a "_").
  { destruct s as [|b s]; simpl; [done|apply IH]. }
  destruct s as [|b s]; simpl; [done|].
  by rewrite !lower_ascii_idemp, IH.
Qed.

Lemma contains_case (column other : string) :
  contains column other = like ("%" +:+ lower other +:+ "%") (lower column).
Proof.
  unfold contains. rewrite <- like_lower. f_equal.
  by rewrite !lower_app.
Qed.

Lemma keyword_matches_case (other other' : string) (db : database) (a : Article) :
  lower other = lower other' →
  keyword_matches other db a = keyword_matches other' db a.
Proof.
  intros Hcase. apply eq_iff_eq_true. rewrite !keyword_matches_spec.
  split; intros (k & Hl & Hc); exists k; (split; [done|]);
    by rewrite contains_case in *; rewrite Hcase in * || rewrite <- Hcase in *.
Qed.

Lemma select_articles_by_keyword_case (other other' : string) (db : database) :
  lower other = lower other' →
  select_articles_by_keyword other db = select_articles_by_keyword other' db.
Proof.
  intros Hcase. unfold select_articles_by_keyword.
  destruct (t_article db) as [rows|]; [|done].
  destruct (t_articlekeyword db); [|done]. destruct (t_keyword db); [|done].
  f_equal. apply List.filter_ext. intros a. by apply keyword_matches_case.
Qed.





End QueryCase.

(** X4. The keyword query does not see the case of ASCII letters in its
    argument: two arguments that are the same once lower-cased give the
    same answer on every store, and the same exception where a table is
    missing. *)
Theorem query_ignores_case (c : connection) (other other' : string)
    (Hcase : lower other = lower other') :
  run (Relationships.query other) c = run (Relationships.query other') c.
Proof.
  unfold Relationships.query. rewrite !run_execute. simpl.
  by rewrite (select_articles_by_keyword_case other other').
Qed.

Lemma query_ignores_case_witness :
  run (Relationships.query "Drug")
      (run (create_all Relationships.metadata;;
            Relationships.load [tagged_drug; tagged_database]) (connect empty_db)).2
  = run (Relationships.query "dRUG")
      (run (create_all Relationships.metadata;;
            Relationships.load [tagged_drug; tagged_database]) (connect empty_db)).2.
Proof. apply query_ignores_case. reflexivity. Defined.




(** ** The loader of notebook 4, paper by paper *)

Section Loader.

Lemma keeps_articles_step {B} (q : stmt B) (c : connection) :
  keeps_articles _ q c →
  t_article (view (exec q c).2) = t_article (view c) ∧ disk (exec q c).2 = disk c.
Proof.
  destruct q; try done; intros _; simpl; unfold write, unit_write.
  - destruct (insert_keyword kw (view c)) as [[i db']|e] eqn:E; [|done].
    by apply insert_keyword_Ok in E as (_ & _ & _ & ->).
  - destruct (insert_articlekeyword d kid (view c)) as [db'|e] eqn:E; [|done].
    by apply insert_articlekeyword_Ok in E as (_ & _ & ->).
Qed.

Lemma keeps_articles_run {A} (p : prog A) (c : connection) :
  guarded keeps_articles p c →
  t_article (view (run p c).2) = t_article (view c) ∧ disk (run p c).2 = disk c.
Proof.
  intros Hg.
  apply (run_invariant
           (λ c', t_article (view c') = t_article (view c) ∧ disk c' = disk c)
           keeps_articles); [|done|done].
  intros B q c' [Ha Hd] Hq.
  destruct (keeps_articles_step q c' Hq) as [Ha' Hd']. split; congruence.
Qed.

Lemma keeps_articles_keyword_objects (kws : list string) :
  always keeps_articles (mapM Relationships.keyword_object kws).
Proof.
  apply always_mapM. intros kw. unfold Relationships.keyword_object.
  apply always_bind; [by apply always_execute|]. intros rows.
  apply always_bind.
  - destruct rows as [|r [|r' rows]]; by intros c.
  - intros [r|]; apply always_ret.
Qed.

Lemma keeps_articles_keyword_ids (objs : list Keyword.t) :
  always keeps_articles (mapM Relationships.keyword_id_of objs).
Proof.
  apply always_mapM. intros o. unfold Relationships.keyword_id_of.
  destruct (Keyword.id o); [apply always_ret|by apply always_execute].
Qed.

Lemma keeps_articles_links (d : string) (ids : list Z) :
  always keeps_articles (for_each ids (λ i, execute (InsertArticleKeyword d i))).
Proof. apply always_for_each. intros i. by apply always_execute. Qed.

(** One paper: added whole, or not at all. *)
Lemma add_paper_result (p : item) (c : connection) :
  txn c = None →
  match run (Relationships.add_paper p) c with
  | (Ok _, c') =>
      txn c' = None
      ∧ articles (disk c') = articles (disk c) ++ [Relationships.new_article p]
  | (Err _, c') => disk c' = disk c
  end.
Proof.
  intros Htxn.
  destruct (run (Relationships.add_paper p) c) as [[[]|e] c'] eqn:Hrun.
  2: { pose proof (atomic_failure (Relationships.add_paper p) c e
                     (atomic_add_paper p)) as H.
       rewrite Hrun in H. by apply H. }
  unfold Relationships.add_paper, Relationships.session_commit in Hrun.
  rewrite run_bind in Hrun.
  pose proof (keeps_articles_run _ c
                (keeps_articles_keyword_objects (item_keywords p) c)) as H1.
  destruct (run (mapM Relationships.keyword_object (item_keywords p)) c)
    as [[objs|e] c1]; [|done].
  rewrite run_bind in Hrun.
  pose proof (keeps_articles_run _ c1 (keeps_articles_keyword_ids objs c1)) as H2.
  destruct (run (mapM Relationships.keyword_id_of objs) c1) as [[ids|e] c2]; [|done].
  rewrite run_bind, run_execute in Hrun. simpl in Hrun. unfold write, unit_write in Hrun.
  destruct (insert_article (Relationships.new_article p) (view c2))
    as [db3|e] eqn:E3; [|done].
  apply insert_article_Ok in E3 as (_ & _ & ->).
  rewrite run_bind in Hrun.
  match type of Hrun with
  | context [run (for_each ids ?body) ?c3] =>
      pose proof (keeps_articles_run _ c3
                    (keeps_articles_links (item_doi p) ids c3)) as H4;
      change (for_each ids (λ i, execute (InsertArticleKeyword (item_doi p) i)))
        with (for_each ids body) in H4;
      destruct (run (for_each ids body) c3) as [[[]|e] c4]; [|done]
  end.
  rewrite run_execute in Hrun. injection Hrun as <-.
  simpl in *. split; [done|].
  destruct H1 as [H1 _], H2 as [H2 _], H4 as [H4 _].
  unfold articles at 1. rewrite H4. simpl.
  f_equal. unfold articles. rewrite H2, H1. unfold view. by rewrite Htxn.
Qed.

Lemma run_for_each_app {X} (l1 l2 : list X) (body : X → prog unit) (c : connection) :
  run (for_each (l1 ++ l2) body) c
  = match run (for_each l1 body) c with
    | (Ok _, c') => run (for_each l2 body) c'
    | (Err e, c') => (Err e, c')
    end.
Proof.
  revert c. induction l1 as [|x l1 IH]; intros c; [done|].
  rewrite <- app_comm_cons, !for_each_cons, !run_bind.
  destruct (run (body x) c) as [[[]|e] c1]; [apply IH|done].
Qed.

(** The papers of the input, in order, until the first that fails. *)
Lemma run_papers (l : list item) (c : connection) :
  txn c = None →
  ∃ j, (j ≤ length l)%nat
       ∧ articles (disk (run (for_each l Relationships.add_paper) c).2)
         = articles (disk c) ++ (Relationships.new_article <$> take j l)
       ∧ ((run (for_each l Relationships.add_paper) c).1 = Ok tt →
          j = length l ∧ txn (run (for_each l Relationships.add_paper) c).2 = None).
Proof.
  revert c. induction l as [|p l IH]; intros c Htxn.
  { exists 0%nat. split; [done|]. split; [by rewrite app_nil_r|done]. }
  rewrite for_each_cons, run_bind.
  pose proof (add_paper_result p c Htxn) as Hp.
  destruct (run (Relationships.add_paper p) c) as [[[]|e] c1].
  - destruct Hp as [Htxn1 Harts].
    destruct (IH c1 Htxn1) as (j & Hj & Hrows & Hend).
    exists (S j). split; [simpl; lia|]. split.
    + rewrite Hrows, Harts, <- app_assoc. done.
    + intros Hok. destruct (Hend Hok) as [-> ?]. done.
  - exists 0%nat. split; [simpl; lia|]. split; [|done].
    simpl. by rewrite Hp, app_nil_r.
Qed.

Lemma run_load (l : list item) (c : connection) :
  run (Relationships.load l) c
  = ((run (for_each l Relationships.add_paper) c).1,
     mkConnection (disk (run (for_each l Relationships.add_paper) c).2) None).
Proof.
  unfold Relationships.load, with_session. rewrite run_finally. by run_statement.
Qed.








End Loader.






(** X9. Whenever the load of notebook 4 is stopped, the articles on disk
    are the articles that were there followed by the articles of a prefix of
    the input, in the order of the input, each built from the doi, title
    and abstract of its record. *)
Theorem stored_articles_are_a_prefix (db : database) (data : list item) (n : nat) :
  ∃ j, (j ≤ length data)%nat
       ∧ articles (disk (crash_after n (Relationships.load data) (connect db)))
         = articles db ++ (Relationships.new_article <$> take j data).
Proof.
  destruct (load_crash data (connect db) n) as (k & Hk & ->).
  destruct (run_papers (take k data) (connect db)) as (j & Hj & -> & _); [done|].
  rewrite length_take in Hj.
  exists j. split; [lia|]. simpl. rewrite take_take. do 3 f_equal. lia.
Qed.



(** X11. Loading an input in two batches, one load cell after the other on
    the same file, stores what loading the whole input at once stores, and
    ends with the same exception if a paper fails. *)
Theorem load_in_two_batches (first second : list item) (db : database) :
  run (Relationships.load first;; Relationships.load second) (connect db)
  = run (Relationships.load (first ++ second)) (connect db).
Proof.
  rewrite run_bind, !run_load, run_for_each_app.
  destruct (run_papers first (connect db)) as (j & _ & _ & Hend); [done|].
  destruct (run (for_each first Relationships.add_paper) (connect db))
    as [[[]|e] c1]; [|done].
  destruct (Hend eq_refl) as [_ Htxn].
  destruct c1 as [d1 t1]. simpl in *. by subst t1.
Qed.



(** ** Notebook 3: the article first, then keyword by keyword *)

Section KeywordLoop.

Lemma NoDup_not_before {X} (pre l : list X) (k : nat) (x : X) :
  NoDup (pre ++ l) → l !! k = Some x → x ∉ pre ++ take k l.
Proof.
  intros Hnd Hk. rewrite <- (take_drop_middle l k x Hk) in Hnd.
  rewrite app_assoc in Hnd. apply NoDup_app in Hnd as (_ & Hnot & _).
  intros Hin. apply (Hnot x Hin). by left.
Qed.





End KeywordLoop.



(** ** What no notebook writes *)

Section NeverWritten.

Lemma no_author_rows_writes {B} (q : stmt B) (db db' : database) :
  no_author_rows db → writes q db db' → no_author_rows db'.
Proof.
  unfold no_author_rows. intros [Hu Hv] Hw. destruct q; try done; simpl in Hw.
  - by apply create_table_Ok in Hw as (_ & _ & _ & -> & _ & _ & -> & _).
  - by apply create_table_if_not_exists_Ok in Hw as (_ & _ & -> & _ & _ & -> & _).
  - by apply insert_article_Ok in Hw as (_ & _ & ->).
  - destruct Hw as [i Hw]. by apply insert_keyword_Ok in Hw as (_ & _ & _ & ->).
  - by apply insert_articlekeyword_Ok in Hw as (_ & _ & ->).
Qed.

Lemma no_author_rows_step {B} (q : stmt B) (c : connection) :
  both no_author_rows c → True → both no_author_rows (exec q c).2.
Proof.
  intros Hc _. apply both_step; [done|].
  intros db' Hw. destruct Hc as [_ Hv]. by eapply no_author_rows_writes.
Qed.

Lemma no_association_writes {B} (q : stmt B) (c : connection) (db db' : database) :
  no_association _ q c → writes q db db' → article_keywords db' = article_keywords db.
Proof.
  intros Hq Hw. destruct q; try done; simpl in Hw.
  - by apply create_table_Ok in Hw as (_ & _ & _ & _ & _ & -> & _).
  - by apply create_table_if_not_exists_Ok in Hw as (_ & _ & _ & _ & -> & _).
  - by apply insert_article_Ok in Hw as (_ & _ & ->).
  - destruct Hw as [i Hw]. by apply insert_keyword_Ok in Hw as (_ & _ & _ & ->).
Qed.

Lemma no_association_step {B} (q : stmt B) (c : connection) :
  both (λ db, article_keywords db = []) c → no_association _ q c →
  both (λ db, article_keywords db = []) (exec q c).2.
Proof.
  intros Hc Hq. apply both_step; [done|].
  intros db' Hw. destruct Hc as [_ Hv].
  by rewrite (no_association_writes q c _ _ Hq Hw).
Qed.

Lemma no_association_sqlmodel (paper_data : item) :
  always no_association (SqlModel.notebook paper_data).
Proof.
  unfold SqlModel.notebook.
  do 3 (apply always_bind; [by apply always_create_all|]; intros _).
  apply always_finally; [|by apply always_execute].
  apply always_bind; [by apply always_execute|]. intros _.
  apply always_bind; [by apply always_execute|]. intros _.
  apply always_for_each. intros kw.
  apply always_bind; [|intros; by apply always_execute].
  by apply always_execute.
Qed.

End NeverWritten.

(** X14. No notebook writes an author: at every moment of every notebook
    run the [author] and [articleauthor] tables hold no row, on disk and in
    the open transaction, although the input records carry authors.
    Notebook 3 writes no association row either: its [articlekeyword]
    table stays empty, so its keywords are stored without a link to the
    paper. *)
Theorem authors_are_never_written (r : notebook_run) (paper_data : item) (n : nat) :
  both no_author_rows (moment r n)
  ∧ both (λ db, article_keywords db = []) (moment (RunSqlModel paper_data) n).
Proof.
  split.
  - destruct r; simpl;
      apply (crash_invariant (both no_author_rows) (λ _ _ _, True));
      try (intros B q c; apply no_author_rows_step); try done;
      apply guarded_true.
  - simpl. apply (crash_invariant (both (λ db, article_keywords db = [])) no_association).
    + intros B q c. apply no_association_step.
    + done.
    + apply no_association_sqlmodel.
Qed.

(** ** Generated ids *)

Section Rowids.

Lemma foldr_max_in (ids : list Z) (j : Z) : foldr Z.max j ids ∈ j :: ids.
Proof.
  induction ids as [|i ids IH]; simpl; [by left|].
  destruct (Z.max_spec i (foldr Z.max j ids)) as [[_ ->]|[_ ->]].
  - apply elem_of_cons in IH as [->|?]; [by left|]. right. by right.
  - right. by left.
Qed.

(** In a table whose ids are 1..n the next generated id is n+1. *)
Lemma next_rowid_seqZ (n : nat) :
  next_rowid (seqZ 1 (Z.of_nat n)) = Z.of_nat n + 1.
Proof.
  destruct n as [|n]; [done|].
  set (m := Z.of_nat (S n)). assert (0 < m) as Hm by lia.
  pose proof (next_rowid_above (seqZ 1 m)) as Habove.
  assert (next_rowid (seqZ 1 m) - 1 ∈ seqZ 1 m) as Hin.
  { rewrite seqZ_cons by done. unfold next_rowid.
    replace (foldr Z.max 1 (seqZ (Z.succ 1) (Z.pred m)) + 1 - 1)
      with (foldr Z.max 1 (seqZ (Z.succ 1) (Z.pred m))) by lia.
    apply foldr_max_in. }
  apply elem_of_seqZ in Hin.
  assert (m ∈ seqZ 1 m) as Hlast by (apply elem_of_seqZ; lia).
  apply Habove in Hlast. lia.
Qed.

Lemma ids_count_from_one_writes {B} (q : stmt B) (db db' : database) :
  ids_count_from_one db → writes q db db' → ids_count_from_one db'.
Proof.
  unfold ids_count_from_one, keyword_ids. intros Hids Hw.
  destruct q; try done; simpl in Hw.
  - by apply create_table_Ok in Hw as (_ & _ & _ & _ & -> & _).
  - by apply create_table_if_not_exists_Ok in Hw as (_ & _ & _ & -> & _).
  - by apply insert_article_Ok in Hw as (_ & _ & ->).
  - destruct Hw as [i Hw]. apply insert_keyword_Ok in Hw as (_ & _ & -> & ->).
    unfold keywords at 1 3. simpl. unfold keyword_ids.
    rewrite fmap_app, length_app, Hids, next_rowid_seqZ. simpl.
    rewrite Nat.add_1_r, seqZ_S. do 2 f_equal. lia.
  - by apply insert_articlekeyword_Ok in Hw as (_ & _ & ->).
Qed.

Lemma ids_count_from_one_step {B} (q : stmt B) (c : connection) :
  both ids_count_from_one c → True → both ids_count_from_one (exec q c).2.
Proof.
  intros Hc _. apply both_step; [done|].
  intros db' Hw. destruct Hc as [_ Hv]. by eapply ids_count_from_one_writes.
Qed.

End Rowids.

(** X15. The generated keyword ids count from one: at every moment of
    every notebook run the keyword rows carry the ids 1, 2, ..., n in the
    order in which they were inserted, on disk and in the open transaction;
    an id is never given twice and none is skipped, also when an insert
    was refused. *)
Theorem keyword_ids_count_from_one (r : notebook_run) (n : nat) :
  both ids_count_from_one (moment r n).
Proof.
  destruct r; simpl;
    apply (crash_invariant (both ids_count_from_one) (λ _ _ _, True));
    try (intros B q c; apply ids_count_from_one_step); try done;
    apply guarded_true.
Qed.

(** ** The raw-SQL notebook, cell by cell *)

Section RawCells.

Lemma insert_keywords_cell_turn (paper : item) :
  Sqlite.insert_keywords_cell paper
  = (for_each (item_keywords paper) insert_keyword_turn;; execute Commit).
Proof. reflexivity. Qed.

Lemma run_insert_keyword_turn (kw : string) (c : connection) :
  run (insert_keyword_turn kw) c
  = match insert_keyword kw (view c) with
    | Ok (i, db') => (Ok tt, mkConnection (disk c) (Some db'))
    | Err e => (Err e, c)
    end.
Proof.
  unfold insert_keyword_turn. rewrite run_bind. run_statement. simpl exec. unfold write.
  by destruct (insert_keyword kw (view c)) as [[i db']|e].
Qed.

(** The loop of the keyword cell: no commit inside, so the rows of the
    turns that went through are in the open transaction only. *)
Lemma run_insert_keyword_turns (kws : list string) (c : connection) :
  ∃ k,
    (k ≤ length kws)%nat
    ∧ (disk (run (for_each kws insert_keyword_turn) c).2 = disk c
       ∧ keyword_only (view c) (view (run (for_each kws insert_keyword_turn) c).2))
    ∧ keyword_texts (view (run (for_each kws insert_keyword_turn) c).2)
      = keyword_texts (view c) ++ take k kws
    ∧ (is_Some (txn c) ∨ (0 < k)%nat →
       is_Some (txn (run (for_each kws insert_keyword_turn) c).2))
    ∧ match (run (for_each kws insert_keyword_turn) c).1 with
      | Ok _ => k = length kws
      | Err e =>
          (e = OperationalError ∧ t_keyword (view c) = None)
          ∨ (e = IntegrityError
             ∧ ∃ kw, kws !! k = Some kw
                     ∧ kw ∈ keyword_texts
                              (view (run (for_each kws insert_keyword_turn) c).2))
      end.
Proof.
  revert c. induction kws as [|kw kws IH]; intros c.
  { exists 0%nat. split; [done|]. split; [by repeat split|].
    split; [by rewrite app_nil_r|].
    split; [|done]. intros [?|?]; [done|simpl in *; lia]. }
  rewrite for_each_cons, run_bind, run_insert_keyword_turn.
  destruct (insert_keyword kw (view c)) as [[i db1]|e] eqn:E; cbv beta iota.
  - set (c1 := mkConnection (disk c) (Some db1)).
    destruct (IH c1) as (k & Hk & [Hd (Ha & Hu & Hl & Hv)] & Htexts & Htxn & Hres).
    apply insert_keyword_Ok in E as (Htk & Hnew & _ & Hdb1).
    assert (keyword_texts (view c1) = keyword_texts (view c) ++ [kw]) as Hc1.
    { unfold c1. change (view (mkConnection (disk c) (Some db1))) with db1. subst db1.
      unfold keyword_texts at 1. unfold keywords at 1. simpl. by rewrite fmap_app. }
    exists (S k). split; [simpl; lia|]. split.
    { split; [done|]. unfold keyword_only. rewrite Ha, Hu, Hl, Hv. unfold c1.
      change (view (mkConnection (disk c) (Some db1))) with db1. by subst db1. }
    split.
    { rewrite Htexts, Hc1, <- app_assoc. done. }
    split; [intros _; apply Htxn; left; by eexists|].
    destruct (run (for_each kws insert_keyword_turn) c1).1 as [[]|e];
      [by rewrite Hres|].
    destruct Hres as [[_ Hnone]|[-> Hkw]]; [|by right].
    destruct Htk as [rows Hrows]. unfold c1 in Hnone.
    change (view (mkConnection (disk c) (Some db1))) with db1 in Hnone.
    by subst db1.
  - exists 0%nat. split; [simpl; lia|]. split; [by repeat split|].
    split; [by rewrite app_nil_r|].
    split; [intros [?|?]; [done|lia]|]. simpl.
    unfold insert_keyword in E. destruct (t_keyword (view c)) as [rows|] eqn:Hrows.
    + case_bool_decide as Hin; [|done]. injection E as <-. right. split; [done|].
      exists kw. split; [done|]. unfold keyword_texts, keywords. by rewrite Hrows.
    + injection E as <-. by left.
Qed.

(** One turn of the association loop reads the keyword table and writes
    to the association table only, and does not commit. *)
Lemma run_associate (d kw : string) (c : connection) :
  (is_Some (t_keyword (view c)) → kw ∉ keyword_texts (view c) →
   run (Sqlite.associate d kw) c = (Err TypeError, c))
  ∧ disk (run (Sqlite.associate d kw) c).2 = disk c
  ∧ t_keyword (view (run (Sqlite.associate d kw) c).2) = t_keyword (view c).
Proof.
  unfold Sqlite.associate. rewrite run_bind. run_statement. simpl exec.
  unfold select_keyword. destruct (t_keyword (view c)) as [rows|] eqn:Hrows.
  2: { split; [by intros [? ?]|done]. }
  split.
  - intros _ Hnew. rewrite filter_none; [done|].
    intros r Hr Ht. apply Hnew. unfold keyword_texts, keywords. rewrite Hrows. simpl.
    rewrite <- Ht. by apply list_elem_of_fmap_2.
  - destruct (filter _ rows) as [|r rs]; [split; [done|exact Hrows]|].
    rewrite run_bind. simpl Sqlite.fetchone_0. change (run (Ret (k_id r)) c) with (Ok (k_id r), c).
    cbv beta iota. run_statement. simpl exec. unfold write, unit_write.
    destruct (insert_articlekeyword d (k_id r) (view c)) as [db'|e] eqn:E;
      [|split; [done|exact Hrows]].
    apply insert_articlekeyword_Ok in E as (_ & _ & ->). split; [done|exact Hrows].
Qed.

Lemma associate_cell_fails (d kw : string) (kws : list string) (c : connection) :
  is_Some (t_keyword (view c)) → kw ∈ kws → kw ∉ keyword_texts (view c) →
  ∃ e c', run (for_each kws (Sqlite.associate d)) c = (Err e, c') ∧ disk c' = disk c.
Proof.
  revert c. induction kws as [|x kws IH]; intros c Htk Hin Hnew.
  { by apply elem_of_nil in Hin. }
  rewrite for_each_cons, run_bind.
  destruct (run_associate d x c) as (Hmiss & Hd & Hk).
  destruct (run (Sqlite.associate d x) c) as [[[]|e] c1] eqn:E; [|by exists e, c1].
  simpl in *.
  assert (kw ∈ kws) as Hin'.
  { apply elem_of_cons in Hin as [->|?]; [|done]. by specialize (Hmiss Htk Hnew). }
  destruct (IH c1) as (e & c' & Hr & Hd'); [by rewrite Hk|done| |].
  { unfold keyword_texts, keywords. by rewrite Hk. }
  exists e, c'. split; [done|congruence].
Qed.

Lemma quiet_associate_cell (paper : item) : quiet (Sqlite.associate_cell paper).
Proof.
  unfold quiet, Sqlite.associate_cell. apply always_for_each. intros kw.
  unfold Sqlite.associate. apply always_bind; [by apply always_execute|]. intros rows.
  apply always_bind; [|intros i; by apply always_execute].
  destruct rows; [apply always_raise|apply always_ret].
Qed.

Lemma always_for_each_in (G : ∀ B, stmt B → connection → Prop) {X} (l : list X)
    (body : X → prog unit) :
  (∀ x, x ∈ l → always G (body x)) → always G (for_each l body).
Proof.
  induction l as [|x l IH]; intros Hbody; [apply always_ret|].
  rewrite for_each_cons. apply always_bind; [apply Hbody; by left|].
  intros _. apply IH. intros y Hy. apply Hbody. by right.
Qed.

Lemma always_before_association (G : ∀ B, stmt B → connection → Prop)
    (year : Z) (paper : item) {A} (rest : prog A) :
  (∀ t c, G _ (CreateTableIfNotExists t) c) → (∀ c, G _ Commit c) →
  (∀ c, G _ (InsertArticle (Sqlite.recent_paper year paper)) c) →
  (∀ kw c, kw ∈ item_keywords paper → G _ (InsertKeyword kw) c) →
  always G rest →
  always G (Sqlite.create_tables Sqlite.given_tables;;
            Sqlite.create_tables Sqlite.exercise_tables;;
            Sqlite.insert_article_cell year paper;;
            Sqlite.insert_keywords_cell paper;;
            rest).
Proof.
  intros Hcreate Hcommit Harticle Hkeyword Hrest.
  apply always_bind; [by apply always_create_tables|]. intros _.
  apply always_bind; [by apply always_create_tables|]. intros _.
  apply always_bind.
  { apply always_bind; [by apply always_execute|]. intros _. by apply always_execute. }
  intros _. apply always_bind; [|done].
  apply always_bind; [|intros _; by apply always_execute].
  apply always_for_each_in. intros kw Hkw.
  apply always_bind; [|intros; apply always_ret].
  apply always_execute. intros c. by apply Hkeyword.
Qed.

(** A program in two parts, stopped anywhere: an invariant of the first
    part, then what the second part keeps of it. *)
Lemma crash_phases {A B} (I J : connection → Prop)
    (G : ∀ B, stmt B → connection → Prop)
    (p : prog A) (f : A → prog B) (c : connection) (n : nat) :
  (∀ B (q : stmt B) c, I c → G _ q c → I (exec q c).2) →
  (∀ c, I c → J c) →
  I c → guarded G p c →
  (∀ a c' m, I c' → J (crash_after m (f a) c')) →
  J (crash_after n (p ≫= f) c).
Proof.
  intros Hstep HIJ Hc Hg Hf. rewrite crash_after_bind. case_decide.
  - by apply HIJ, (crash_invariant I G Hstep).
  - pose proof (run_invariant I G Hstep p c Hc Hg) as Hrun.
    destruct (run p c) as [[a|e] c']; simpl in *; [by apply Hf|by apply HIJ].
Qed.

Lemma as_given_writes (year : Z) (paper : item) {B} (q : stmt B) (c : connection)
    (db db' : database) :
  as_given year paper db → sqlite_values year paper _ q c → writes q db db' →
  as_given year paper db'.
Proof.
  unfold as_given. intros [Ha Hk] Hq Hw. destruct q; try done; simpl in Hw, Hq.
  - by apply create_table_Ok in Hw as (_ & _ & -> & _ & -> & _).
  - by apply create_table_if_not_exists_Ok in Hw as (_ & -> & _ & -> & _).
  - apply insert_article_Ok in Hw as (_ & _ & ->). split; [|done].
    intros a' [?|Heq%list_elem_of_singleton]%elem_of_app; [by apply Ha|by subst].
  - destruct Hw as [i Hw]. apply insert_keyword_Ok in Hw as (_ & _ & _ & ->).
    split; [done|].
    intros r [?|Heq%list_elem_of_singleton]%elem_of_app; [by apply Hk|by subst].
  - by apply insert_articlekeyword_Ok in Hw as (_ & _ & ->).
Qed.

Lemma at_most_one (l : list Article) (a : Article) :
  NoDup (doi <$> l) → (∀ a', a' ∈ l → a' = a) → (length l ≤ 1)%nat.
Proof.
  destruct l as [|a1 [|a2 l]]; simpl; [lia|lia|].
  intros [Hin _]%NoDup_cons Hall. destruct Hin.
  rewrite (Hall a1), <- (Hall a2); [by left| |by left]. right. by left.
Qed.

End RawCells.

(** X16. The association rows of the raw-SQL notebook never reach the
    disk: the cell that inserts them has no [connection.commit()] and no
    cell after it commits, so at every moment of a run of the notebook the
    [article_keywords] table on disk is empty; the rows exist in the open
    transaction only. *)
Theorem raw_association_rows_are_never_committed (year : Z) (paper : item) (n : nat) :
  article_keywords (disk (moment (RunSqlite year paper) n)) = [].
Proof.
  simpl. unfold Sqlite.notebook.
  pose (I := both (λ db, article_keywords db = [])).
  assert (∀ B (q : stmt B) c, I c → no_association _ q c → I (exec q c).2) as Hstep
    by (intros B q c; apply no_association_step).
  assert (∀ c, I c → article_keywords (disk c) = []) as HIJ by (by intros c [? _]).
  apply (crash_phases I (λ c, article_keywords (disk c) = []) no_association);
    [done|done|done| |].
  { by apply always_create_tables. }
  intros _ c1 n1 H1.
  apply (crash_phases I (λ c, article_keywords (disk c) = []) no_association);
    [done|done|done| |].
  { by apply always_create_tables. }
  intros _ c2 n2 H2.
  apply (crash_phases I (λ c, article_keywords (disk c) = []) no_association);
    [done|done|done| |].
  { apply always_bind; [by apply always_execute|]. intros _. by apply always_execute. }
  intros _ c3 n3 H3.
  apply (crash_phases I (λ c, article_keywords (disk c) = []) no_association);
    [done|done|done| |].
  { apply always_bind; [|intros _; by apply always_execute].
    apply always_for_each. intros kw.
    apply always_bind; [by apply always_execute|]. intros. apply always_ret. }
  intros _ c4 n4 H4.
  rewrite quiet_crash by apply quiet_associate_cell. by apply HIJ.
Qed.

(** X17. The raw-SQL notebook stores what it is given: at every moment of
    a run the [articles] table holds at most one row, the article built
    from the doi, title and abstract of the record with the year of the
    clock (not a fixed year), and every stored keyword is a keyword of the
    record spelled as the record spells it (no lower-casing). *)
Theorem raw_notebook_stores_values_as_given (year : Z) (paper : item) (n : nat) :
  both (as_given year paper) (moment (RunSqlite year paper) n)
  ∧ (length (articles (disk (moment (RunSqlite year paper) n))) ≤ 1)%nat.
Proof.
  assert (both (as_given year paper) (moment (RunSqlite year paper) n)) as Hboth.
  { simpl.
    apply (crash_invariant (both (as_given year paper)) (sqlite_values year paper)).
    - intros B q c Hc Hq. apply both_step; [done|].
      intros db' Hw. destruct Hc as [_ Hv]. by eapply as_given_writes.
    - split; split; by intros ? ?%elem_of_nil.
    - unfold Sqlite.notebook. apply always_before_association; try done.
      unfold Sqlite.associate_cell. apply always_for_each. intros kw.
      unfold Sqlite.associate. apply always_bind; [by apply always_execute|].
      intros rows. apply always_bind; [|intros i; by apply always_execute].
      destruct rows; [apply always_raise|apply always_ret]. }
  split; [done|].
  destruct Hboth as [[Hall _] _].
  destruct (moment_store_ok (RunSqlite year paper) n) as [[(Hdois & _) _] _].
  by apply (at_most_one _ (Sqlite.recent_paper year paper)).
Qed.

(** X18. The association cell of the raw-SQL notebook needs every keyword
    of the paper in the [keywords] table, spelled as in the record: for a
    keyword that is not stored the [SELECT] finds no row, [fetchone()[0]]
    raises [TypeError] and the connection is left as it was; a paper with
    such a keyword never gets through the cell, and the disk is not
    changed. *)
Theorem association_needs_stored_keywords (paper : item) (keyword : string)
    (c : connection)
    (Htable : is_Some (t_keyword (view c)))
    (Hkeyword : keyword ∈ item_keywords paper)
    (Hmissing : keyword ∉ keyword_texts (view c)) :
  run (Sqlite.associate (item_doi paper) keyword) c = (Err TypeError, c)
  ∧ ∃ e c', run (Sqlite.associate_cell paper) c = (Err e, c') ∧ disk c' = disk c.
Proof.
  split.
  - by apply run_associate.
  - by apply (associate_cell_fails _ keyword).
Qed.

Lemma association_needs_stored_keywords_witness :
  let c := (run (Sqlite.notebook 2024 one_paper) (connect empty_db)).2 in
  let paper := mkItem "10.26434/example-6" "Sixth" None ["Database"; "database"] [] "" in
  run (Sqlite.associate (item_doi paper) "database") c = (Err TypeError, c)
  ∧ ∃ e c', run (Sqlite.associate_cell paper) c = (Err e, c') ∧ disk c' = disk c.
Proof.
  intros c paper. apply association_needs_stored_keywords.
  - by eexists.
  - decide_now.
  - decide_now.
Defined.

(** X19. The keyword cell of the raw-SQL notebook commits once, after its
    loop.  When every insert goes through, all the keywords of the paper
    are committed, as given and in order; when an insert is refused (the
    table is missing, or the text is stored already) the cell ends with the
    exception before the commit: the disk is as it was, and the keywords
    inserted before the refused one stay in the transaction, which is left
    open. *)
Theorem keyword_cell_commits_after_the_loop (paper : item) (c : connection) :
  let r := (run (Sqlite.insert_keywords_cell paper) c).1 in
  let c' := (run (Sqlite.insert_keywords_cell paper) c).2 in
  ∃ k,
    (k ≤ length (item_keywords paper))%nat
    ∧ keyword_texts (view c') = keyword_texts (view c) ++ take k (item_keywords paper)
    ∧ match r with
      | Ok _ => k = length (item_keywords paper) ∧ txn c' = None ∧ disk c' = view c'
      | Err e =>
          disk c' = disk c
          ∧ ((0 < k)%nat → is_Some (txn c'))
          ∧ ((e = OperationalError ∧ t_keyword (view c) = None)
             ∨ (e = IntegrityError
                ∧ ∃ kw, item_keywords paper !! k = Some kw
                        ∧ kw ∈ keyword_texts (view c')))
      end.
Proof.
  intros r c'. subst r c'. rewrite insert_keywords_cell_turn, run_bind.
  destruct (run_insert_keyword_turns (item_keywords paper) c)
    as (k & Hk & [Hd _] & Htexts & Htxn & Hres).
  exists k.
  destruct (run (for_each (item_keywords paper) insert_keyword_turn) c)
    as [[[]|e] c1]; simpl in *.
  - split; [done|]. split; [exact Htexts|]. by split.
  - split; [done|]. split; [done|]. split; [done|]. split; [|done].
    intros Hpos. apply Htxn. by right.
Qed.

(** ** The notebooks from a fresh file to the end *)

Section EndToEnd.

Lemma rows_zip (l : list keyword_row) :
  zip_with mkKeywordRow (k_id <$> l) (k_keyword <$> l) = l.
Proof.
  induction l as [|[i t] l IH]; [done|]. rewrite !fmap_cons. simpl. by rewrite IH.
Qed.

(** The rows of a keyword table, from its ids and its texts. *)
Lemma keywords_from_ids_texts (db : database) (texts : list string) :
  ids_count_from_one db → keyword_texts db = texts →
  keywords db = zip_with mkKeywordRow (seqZ 1 (Z.of_nat (length texts))) texts.
Proof.
  intros Hids <-. rewrite <- (rows_zip (keywords db)) at 1.
  unfold keyword_texts. rewrite length_fmap. by rewrite <- Hids.
Qed.

(** Keywords that differ from one another and from the stored ones are
    all inserted. *)
Lemma insert_turns_succeed (kws : list string) (c : connection) :
  is_Some (t_keyword (view c)) → NoDup (keyword_texts (view c) ++ kws) →
  ∃ c',
    run (for_each kws insert_keyword_turn) c = (Ok tt, c')
    ∧ disk c' = disk c ∧ keyword_only (view c) (view c')
    ∧ keyword_texts (view c') = keyword_texts (view c) ++ kws.
Proof.
  intros Htk Hnd.
  destruct (run_insert_keyword_turns kws c) as (k & Hk & [Hd Hko] & Htexts & _ & Hres).
  destruct (run (for_each kws insert_keyword_turn) c) as [[[]|e] c']; simpl in *.
  - exists c'. subst k. by rewrite firstn_all in Htexts.
  - destruct Hres as [[_ Hnone]|[_ (kw & Hkw & Hin)]].
    + rewrite Hnone in Htk. by destruct Htk.
    + rewrite Htexts in Hin. by destruct (NoDup_not_before _ _ _ _ Hnd Hkw).
Qed.

(** The association loop on keywords that are stored: one row per
    keyword, with the id of its row. *)
Lemma run_associate_rows (d : string) (rs : list keyword_row) (c : connection) :
  is_Some (t_articlekeyword (view c)) →
  NoDup (keyword_texts (view c)) →
  rs ⊆ keywords (view c) →
  NoDup (k_id <$> rs) →
  (∀ r, r ∈ rs → mkArticleKeyword d (k_id r) ∉ article_keywords (view c)) →
  ∃ c',
    run (for_each (k_keyword <$> rs) (Sqlite.associate d)) c = (Ok tt, c')
    ∧ disk c' = disk c
    ∧ link_only (view c) (view c')
    ∧ article_keywords (view c')
      = article_keywords (view c) ++ (mkArticleKeyword d <$> (k_id <$> rs)).
Proof.
  revert c. induction rs as [|r rs IH]; intros c Htl Htexts Hsub Hnd Hnew.
  { exists c. split; [done|]. split; [done|]. split; [by repeat split|].
    by rewrite app_nil_r. }
  rewrite fmap_cons in Hnd. apply NoDup_cons in Hnd as [Hr Hnd].
  assert (r ∈ keywords (view c)) as Hin by (apply Hsub; by left).
  set (l := mkArticleKeyword d (k_id r)).
  set (c1 := mkConnection (disk c)
               (Some (with_articlekeyword (article_keywords (view c) ++ [l]) (view c)))).
  assert (run (Sqlite.associate d (k_keyword r)) c = (Ok tt, c1)) as Hone.
  { unfold Sqlite.associate. rewrite run_bind. run_statement. simpl exec.
    pose proof (filter_the_row (view c) r Htexts Hin) as Hf.
    unfold select_keyword. unfold keywords in Hin, Hf.
    destruct (t_keyword (view c)) as [ks|]; [|by apply elem_of_nil in Hin].
    simpl in Hf. rewrite Hf, run_bind. simpl Sqlite.fetchone_0.
    change (run (Ret (k_id r)) c) with (Ok (k_id r), c). cbv beta iota.
    run_statement. simpl exec. unfold write, unit_write.
    assert (insert_articlekeyword d (k_id r) (view c)
            = Ok (with_articlekeyword (article_keywords (view c) ++ [l]) (view c))) as ->.
    { apply insert_articlekeyword_Ok. split; [done|]. split; [|done]. apply Hnew. by left. }
    done. }
  assert (article_keywords (view c1) = article_keywords (view c) ++ [l]) as Hl1 by done.
  assert (keywords (view c1) = keywords (view c)) as Hk1 by done.
  destruct (IH c1) as (c' & Hr' & Hd & (Ha & Hu & Hk & Hv) & Hl).
  { by eexists. }
  { unfold keyword_texts. by rewrite Hk1. }
  { rewrite Hk1. intros r' Hr'. apply Hsub. by right. }
  { done. }
  { intros r' Hr'. rewrite Hl1.
    intros [Hold|Heq%list_elem_of_singleton]%elem_of_app.
    - eapply Hnew; [|exact Hold]. by right.
    - injection Heq as Heq. apply Hr. rewrite <- Heq. by apply list_elem_of_fmap_2. }
  exists c'. rewrite !fmap_cons, for_each_cons, run_bind, Hone.
  split; [done|]. split; [done|]. split; [by repeat split|].
  by rewrite Hl, Hl1, <- app_assoc.
Qed.

Lemma Forall_both_run (P : database → Prop) {A} (p : prog A) (c : connection) :
  (∀ B (q : stmt B) db db', P db → writes q db db' → P db') →
  both P c → both P (run p c).2.
Proof.
  intros Hw Hc. apply (run_invariant (both P) (λ _ _ _, True)); [|done|apply guarded_true].
  intros B q c' Hc' _. apply both_step; [done|].
  intros db' Hq. destruct Hc' as [_ Hv]. by eapply Hw.
Qed.

End EndToEnd.

(** The raw-SQL notebook, cell after cell, on a fresh file. *)
Lemma run_raw_notebook (year : Z) (paper : item) :
  NoDup (item_keywords paper) →
  let ids := seqZ 1 (Z.of_nat (length (item_keywords paper))) in
  ∃ c,
    run (Sqlite.notebook year paper) (connect empty_db) = (Ok tt, c)
    ∧ articles (disk c) = [Sqlite.recent_paper year paper]
    ∧ keywords (disk c) = zip_with mkKeywordRow ids (item_keywords paper)
    ∧ article_keywords (disk c) = []
    ∧ articles (view c) = articles (disk c)
    ∧ keywords (view c) = keywords (disk c)
    ∧ article_keywords (view c) = mkArticleKeyword (item_doi paper) <$> ids.
Proof.
  intros Hdistinct.
  intros ids.
  set (a := Sqlite.recent_paper year paper).
  set (db0 := mkDatabase (Some []) (Some []) (Some []) (Some []) (Some [])).
  set (db1 := with_article [a] db0).
  assert (run (Sqlite.create_tables Sqlite.given_tables) (connect empty_db)
          = (Ok tt, connect (mkDatabase (Some []) (Some []) None None (Some []))))
    as Hgiven by reflexivity.
  assert (run (Sqlite.create_tables Sqlite.exercise_tables)
            (connect (mkDatabase (Some []) (Some []) None None (Some [])))
          = (Ok tt, connect db0)) as Hexercise by reflexivity.
  assert (run (Sqlite.insert_article_cell year paper) (connect db0)
          = (Ok tt, connect db1)) as Harticle.
  { rewrite run_insert_article_cell. fold a.
    assert (insert_article a db0 = Ok db1) as ->; [|done].
    apply insert_article_Ok. split; [by eexists|]. split; [apply not_elem_of_nil|done]. }
  destruct (insert_turns_succeed (item_keywords paper) (connect db1))
    as (c2 & Hr2 & Hd2 & (Ha2 & Hu2 & Hl2 & Hv2) & Htexts2); [by eexists|done|].
  set (db2 := view c2).
  assert (run (Sqlite.insert_keywords_cell paper) (connect db1) = (Ok tt, connect db2))
    as Hkeywords.
  { rewrite insert_keywords_cell_turn, run_bind, Hr2. by run_statement. }
  assert (ids_count_from_one db2) as Hids2.
  { pose proof (Forall_both_run ids_count_from_one
                  (for_each (item_keywords paper) insert_keyword_turn) (connect db1))
      as H.
    rewrite Hr2 in H. apply H; [|by split].
    intros B q db db'. apply ids_count_from_one_writes. }
  assert (keyword_texts db2 = item_keywords paper) as Htexts by exact Htexts2.
  assert (length (keywords db2) = length (item_keywords paper)) as Hlen.
  { rewrite <- Htexts. unfold keyword_texts. by rewrite length_fmap. }
  destruct (run_associate_rows (item_doi paper) (keywords db2) (connect db2))
    as (c' & Hr' & Hd' & (Ha' & Hu' & Hk' & Hv') & Hl').
  { change (view (connect db2)) with db2. unfold db2. rewrite Hl2. by eexists. }
  { change (view (connect db2)) with db2. by rewrite Htexts. }
  { done. }
  { change (NoDup (keyword_ids db2)). rewrite Hids2. apply NoDup_seqZ. }
  { intros r _. change (view (connect db2)) with db2.
    unfold article_keywords, db2. rewrite Hl2. apply not_elem_of_nil. }
  change (view (connect db2)) with db2 in *. change (disk (connect db2)) with db2 in *.
  assert (run (Sqlite.associate_cell paper) (connect db2) = (Ok tt, c')) as Hassociate.
  { unfold Sqlite.associate_cell. rewrite <- Htexts. exact Hr'. }
  exists c'. split.
  { unfold Sqlite.notebook.
    by rewrite run_bind, Hgiven, run_bind, Hexercise, run_bind, Harticle, run_bind,
      Hkeywords. }
  rewrite Hd'. split; [unfold articles, db2; by rewrite Ha2|].
  split; [by apply keywords_from_ids_texts|].
  split; [unfold article_keywords, db2; by rewrite Hl2|].
  split; [unfold articles; by rewrite Ha'|].
  split; [unfold keywords; by rewrite Hk'|].
  rewrite Hl'. unfold article_keywords at 1, db2. rewrite Hl2. simpl.
  change (k_id <$> keywords (view c2)) with (keyword_ids db2).
  by rewrite Hids2, Hlen.
Qed.


(** X20. The raw-SQL notebook on a fresh file, to its end, the two tables
    of its exercise being created like the ones it gives.  The run ends
    without an exception exactly when the keywords of the paper differ from
    one another; otherwise it ends with the [IntegrityError] of the keyword
    insert that the unique index refuses.  When it runs through, the disk
    holds the one article, with the year of the clock, and one keyword row
    per keyword, as given, with the ids 1..n in the order of the record; the
    association rows, one per keyword with the id of its row, are in the
    open transaction and not on disk. *)
Theorem raw_notebook_on_a_fresh_file (year : Z) (paper : item) :
  let ids := seqZ 1 (Z.of_nat (length (item_keywords paper))) in
  (run (Sqlite.notebook year paper) (connect empty_db)).1
  = (if bool_decide (NoDup (item_keywords paper)) then Ok tt else Err IntegrityError)
  ∧ (NoDup (item_keywords paper) →
     ∃ c,
       run (Sqlite.notebook year paper) (connect empty_db) = (Ok tt, c)
       ∧ articles (disk c) = [Sqlite.recent_paper year paper]
       ∧ keywords (disk c) = zip_with mkKeywordRow ids (item_keywords paper)
       ∧ article_keywords (disk c) = []
       ∧ articles (view c) = articles (disk c)
       ∧ keywords (view c) = keywords (disk c)
       ∧ article_keywords (view c) = mkArticleKeyword (item_doi paper) <$> ids).
Proof.
  intros ids. split; [|apply run_raw_notebook].
  set (db0 := mkDatabase (Some []) (Some []) (Some []) (Some []) (Some [])).
  case_bool_decide as Hnd.
  - by destruct (run_raw_notebook year paper Hnd) as (c & -> & _).
  - set (db1 := with_article [Sqlite.recent_paper year paper] db0).
    assert (run (Sqlite.create_tables Sqlite.given_tables) (connect empty_db)
            = (Ok tt, connect (mkDatabase (Some []) (Some []) None None (Some []))))
      as Hgiven by reflexivity.
    assert (run (Sqlite.create_tables Sqlite.exercise_tables)
              (connect (mkDatabase (Some []) (Some []) None None (Some [])))
            = (Ok tt, connect db0)) as Hexercise by reflexivity.
    assert (run (Sqlite.insert_article_cell year paper) (connect db0)
            = (Ok tt, connect db1)) as Harticle.
    { rewrite run_insert_article_cell.
      assert (insert_article (Sqlite.recent_paper year paper) db0 = Ok db1) as ->;
        [|done].
      apply insert_article_Ok. split; [by eexists|]. split; [apply not_elem_of_nil|done]. }
    unfold Sqlite.notebook.
    rewrite run_bind, Hgiven, run_bind, Hexercise, run_bind, Harticle, run_bind,
      insert_keywords_cell_turn, run_bind.
    destruct (run_insert_keyword_turns (item_keywords paper) (connect db1))
      as (k & _ & _ & Htexts & _ & Hres).
    pose proof (Forall_both_run keys_unique
                  (for_each (item_keywords paper) insert_keyword_turn) (connect db1))
      as [_ (_ & _ & Hunique & _)].
    { intros B q db db'. apply keys_unique_writes. }
    { split; repeat split; constructor; try apply not_elem_of_nil; constructor. }
    destruct (run (for_each (item_keywords paper) insert_keyword_turn) (connect db1))
      as [[[]|e] c2]; simpl in Htexts, Hres, Hunique.
    + subst k. rewrite firstn_all in Htexts. rewrite Htexts in Hunique. done.
    + by destruct Hres as [[_ ?]|[-> _]].
Qed.






(** ** The exceptions a notebook can end with *)

Section Exceptions.











End Exceptions.

